(** * The authoritative game-state server of buildnow.js

    A shallow embedding of the server half of [buildnow.js]: the world
    store ([world.players], [world.builds], [nextBuildId]), [clamp], and
    the socket handlers [connection], [move], [shoot], [placeBuild] and
    [disconnect], together with the 20 Hz [worldState] broadcast.

    Numbers.  A JavaScript number is modelled by [num]: the three kinds of
    special value that steer the control flow of the handlers ([NaN],
    [+Infinity], [-Infinity]) are explicit, and a finite number is a real.
    Arithmetic on finite numbers is exact: rounding, overflow and
    underflow of binary64 are not modelled, and the two zeros are not
    told apart (the only divisor in the program is [2*a], a sum of
    squares, which is never the negative zero).  The properties of the
    hit resolution are therefore stated on the numbers the loop computes
    and compares (the discriminant, the root, [closest]), an infinite
    root included, not on the geometry behind them.  [health] and build
    ids, which the program only ever moves by whole steps, are integers.

    Inputs.  A handler is a function of the state, of the id of the
    socket it was registered for and of the message; [Math.random()] is
    an argument of the handlers that call it.  The fields of a message
    are numbers and strings as the handler reads them.  No handler
    checks a field: a coordinate that is missing from a message reads as
    [undefined], which [Math.min], [Math.max] and the arithmetic turn
    into [NaN], and is modelled by [NaN].  The one property that needs
    the coordinates of a [move] to be numbers says so ([move_ok]). *)

From Stdlib Require Import Reals Lra Lia ZArith List String Bool Sorted.
Import ListNotations.

Open Scope R_scope.

(** ** JavaScript numbers *)

Inductive num : Type :=
| NaN
| PInf
| NInf
| Fin (r : R).

Definition Rltb (a b : R) : bool := if Rlt_dec a b then true else false.
Definition Reqb (a b : R) : bool := if Req_dec_T a b then true else false.

(** Sign of a number that is not [NaN]; a zero counts as positive. *)
Definition negative (a : num) : bool :=
  match a with
  | NInf => true
  | Fin r => Rltb r 0
  | _ => false
  end.

Definition is_zero (a : num) : bool :=
  match a with
  | Fin r => Reqb r 0
  | _ => false
  end.

Definition inf_of_sign (neg : bool) : num := if neg then NInf else PInf.

(** [a + b] *)
Definition nadd (a b : num) : num :=
  match a, b with
  | NaN, _ | _, NaN => NaN
  | PInf, NInf | NInf, PInf => NaN
  | PInf, _ | _, PInf => PInf
  | NInf, _ | _, NInf => NInf
  | Fin p, Fin q => Fin (p + q)
  end.

(** unary [-a] *)
Definition nneg (a : num) : num :=
  match a with
  | NaN => NaN
  | PInf => NInf
  | NInf => PInf
  | Fin p => Fin (- p)
  end.

(** [a - b] *)
Definition nsub (a b : num) : num :=
  match a, b with
  | NaN, _ | _, NaN => NaN
  | PInf, PInf | NInf, NInf => NaN
  | PInf, _ | _, NInf => PInf
  | NInf, _ | _, PInf => NInf
  | Fin p, Fin q => Fin (p - q)
  end.

(** [a * b]: an infinity times a zero is [NaN]. *)
Definition nmul (a b : num) : num :=
  match a, b with
  | NaN, _ | _, NaN => NaN
  | Fin p, Fin q => Fin (p * q)
  | _, _ =>
      if is_zero a || is_zero b then NaN
      else inf_of_sign (xorb (negative a) (negative b))
  end.

(** [a / b]: [0/0] and [Infinity/Infinity] are [NaN], a finite number
    over an infinity is zero, a non-zero number over zero is an infinity. *)
Definition ndiv (a b : num) : num :=
  match a, b with
  | NaN, _ | _, NaN => NaN
  | Fin p, Fin q =>
      if Reqb q 0 then
        if Reqb p 0 then NaN else inf_of_sign (negative a)
      else Fin (p / q)
  | Fin _, _ => Fin 0
  | _, Fin _ => inf_of_sign (xorb (negative a) (negative b))
  | _, _ => NaN
  end.

(** [Math.sqrt(a)] *)
Definition nsqrt (a : num) : num :=
  match a with
  | NaN | NInf => NaN
  | PInf => PInf
  | Fin p => if Rltb p 0 then NaN else Fin (sqrt p)
  end.

(** [a < b]: false as soon as one side is [NaN]. *)
Definition nlt (a b : num) : bool :=
  match a, b with
  | NaN, _ | _, NaN => false
  | _, NInf => false
  | NInf, _ => true
  | PInf, _ => false
  | _, PInf => true
  | Fin p, Fin q => Rltb p q
  end.

(** [a > b] and [a <= b] *)
Definition ngt (a b : num) : bool := nlt b a.

Definition nle (a b : num) : bool :=
  match a, b with
  | NaN, _ | _, NaN => false
  | NInf, _ | _, PInf => true
  | _, NInf | PInf, _ => false
  | Fin p, Fin q => negb (Rltb q p)
  end.

(** [Math.max(a, b)] and [Math.min(a, b)]: [NaN] if either is. *)
Definition Math_max (a b : num) : num :=
  match a, b with
  | NaN, _ | _, NaN => NaN
  | _, _ => if nlt a b then b else a
  end.

Definition Math_min (a b : num) : num :=
  match a, b with
  | NaN, _ | _, NaN => NaN
  | _, _ => if nlt b a then b else a
  end.

(** Truthiness of a number, as [||] tests it. *)
Definition truthy (a : num) : bool :=
  match a with
  | NaN => false
  | Fin r => negb (Reqb r 0)
  | _ => true
  end.

(** ** World state *)

Record Player : Type := mkPlayer {
  x : num;
  y : num;
  z : num;
  rotationY : num;
  health : Z
}.

Record Build : Type := mkBuild {
  id : Z;
  ownerId : string;
  type : string;
  bx : num;
  by_ : num;
  bz : num;
  rotY : num
}.

(** [world.players] is an object keyed by socket id.  Socket ids are not
    array indices, so [Object.entries] lists the keys in insertion order:
    the object is an association list without repeated keys. *)
Definition Players : Type := list (string * Player).

Record State : Type := mkState {
  players : Players;
  builds : list Build;
  nextBuildId : Z
}.

Definition init : State := mkState [] [] 1.

Definition ARENA_LIMIT : num := Fin 50.

Definition clamp (v : num) : num :=
  Math_max (nneg ARENA_LIMIT) (Math_min ARENA_LIMIT v).

(** [obj[k]] *)
Fixpoint lookup (k : string) (ps : Players) : option Player :=
  match ps with
  | [] => None
  | (k', p) :: rest => if String.eqb k' k then Some p else lookup k rest
  end.

(** [obj[k] = p]: an existing key keeps its place, a new one goes last. *)
Fixpoint set (k : string) (p : Player) (ps : Players) : Players :=
  match ps with
  | [] => [(k, p)]
  | (k', p') :: rest =>
      if String.eqb k' k then (k', p) :: rest else (k', p') :: set k p rest
  end.

(** [delete obj[k]] *)
Fixpoint delete (k : string) (ps : Players) : Players :=
  match ps with
  | [] => []
  | (k', p') :: rest =>
      if String.eqb k' k then delete k rest else (k', p') :: delete k rest
  end.

(** ** Messages *)

Record Vec3 : Type := mkVec3 { vx : num; vy : num; vz : num }.

Record MoveData : Type := mkMove {
  mx : num; my : num; mz : num; mrotationY : num
}.

Record ShootData : Type := mkShoot { origin : Vec3; direction : Vec3 }.

(** [rotY] is optional in the message. *)
Record BuildData : Type := mkBuildData {
  dtype : string; dx : num; dy : num; dz : num; drotY : option num
}.

(** What the server sends.  [respawn] and [initState] go to one socket,
    [playerJoined] to every socket but one, the others to everybody. *)
Inductive Event : Type :=
| initState (to selfId : string) (ps : Players) (bs : list Build)
| playerJoined (except : string) (pid : string) (p : Player)
| respawn (to : string) (rx ry rz : num)
| playerHit (victimId : string) (newHealth : Z)
| buildPlaced (b : Build)
| playerLeft (pid : string)
| worldState (ps : Players) (bs : list Build).

(** ** Handlers

    A handler takes the state and returns the new state with the events
    it emitted, in order.  [Math.random()] is an argument: a real [u]
    with [0 <= u < 1]. *)

Definition spawn_coord (u : R) : num :=
  nmul (nsub (Fin u) (Fin 0.5)) (Fin 30).

Definition on_connection (sid : string) (u1 u2 : R) (s : State)
  : State * list Event :=
  let spawn := mkPlayer (spawn_coord u1) (Fin 1) (spawn_coord u2) (Fin 0) 100 in
  let ps := set sid spawn (players s) in
  (mkState ps (builds s) (nextBuildId s),
   [initState sid sid ps (builds s); playerJoined sid sid spawn]).

Definition on_move (sid : string) (data : MoveData) (s : State)
  : State * list Event :=
  match lookup sid (players s) with
  | None => (s, [])
  | Some p =>
      let p' := mkPlayer (clamp (mx data)) (clamp (my data)) (clamp (mz data))
                         (mrotationY data) (health p) in
      (mkState (set sid p' (players s)) (builds s) (nextBuildId s), [])
  end.

(** The quadratic of the ray against the hit sphere of [pl]. *)
Definition radius : num := Fin 0.5.

Definition coef_a (d : ShootData) : num :=
  let v := direction d in
  nadd (nadd (nmul (vx v) (vx v)) (nmul (vy v) (vy v))) (nmul (vz v) (vz v)).

Definition oc (d : ShootData) (pl : Player) : Vec3 :=
  let o := origin d in
  mkVec3 (nsub (vx o) (x pl))
         (nsub (vy o) (nadd (y pl) (Fin 0.5)))
         (nsub (vz o) (z pl)).

Definition coef_b (d : ShootData) (pl : Player) : num :=
  let v := direction d in
  let w := oc d pl in
  nmul (Fin 2)
       (nadd (nadd (nmul (vx w) (vx v)) (nmul (vy w) (vy v)))
             (nmul (vz w) (vz v))).

Definition coef_c (d : ShootData) (pl : Player) : num :=
  let w := oc d pl in
  nsub (nadd (nadd (nmul (vx w) (vx w)) (nmul (vy w) (vy w)))
             (nmul (vz w) (vz w)))
       (nmul radius radius).

Definition disc (d : ShootData) (pl : Player) : num :=
  let a := coef_a d in
  let b := coef_b d pl in
  let c := coef_c d pl in
  nsub (nmul b b) (nmul (nmul (Fin 4) a) c).

Definition root_t (d : ShootData) (pl : Player) : num :=
  ndiv (nsub (nneg (coef_b d pl)) (nsqrt (disc d pl)))
       (nmul (Fin 2) (coef_a d)).

(** One turn of the loop over [Object.entries(world.players)]; the
    accumulator is [(hitId, closest)]. *)
Definition scan (sid : string) (d : ShootData)
  (acc : option string * num) (e : string * Player) : option string * num :=
  let '(pid, pl) := e in
  if String.eqb pid sid then acc
  else if nlt (disc d pl) (Fin 0) then acc
  else
    let t := root_t d pl in
    if ngt t (Fin 0) && nlt t (snd acc) then (Some pid, t) else acc.

Definition resolve (sid : string) (d : ShootData) (ps : Players)
  : option string * num :=
  fold_left (scan sid d) ps (None, PInf).

Definition resolveHit (sid : string) (d : ShootData) (ps : Players)
  : option string :=
  fst (resolve sid d ps).

(** The body of [if (hitId) { ... }], for a victim that is in the map. *)
Definition applyDamage (hitId : string) (victim : Player) (u1 u2 : R)
  (s : State) : State * list Event :=
  let h := (health victim - 20)%Z in
  if (h <=? 0)%Z then
    let v := mkPlayer (spawn_coord u1) (Fin 1) (spawn_coord u2)
                      (rotationY victim) 100 in
    (mkState (set hitId v (players s)) (builds s) (nextBuildId s),
     [respawn hitId (x v) (y v) (z v); playerHit hitId (health v)])
  else
    let v := mkPlayer (x victim) (y victim) (z victim) (rotationY victim) h in
    (mkState (set hitId v (players s)) (builds s) (nextBuildId s),
     [playerHit hitId (health v)]).

(** [hitId] is truthy unless it is the empty string.  [world.players[hitId]]
    is always there, [hitId] being a key the loop has met (lemma
    [resolveHit_found]); the branch for a missing victim is never taken. *)
Definition on_shoot (sid : string) (data : ShootData) (u1 u2 : R) (s : State)
  : State * list Event :=
  match lookup sid (players s) with
  | None => (s, [])
  | Some _ =>
      match resolveHit sid data (players s) with
      | None => (s, [])
      | Some hitId =>
          if String.eqb hitId EmptyString then (s, [])
          else
            match lookup hitId (players s) with
            | None => (s, [])
            | Some victim => applyDamage hitId victim u1 u2 s
            end
      end
  end.

(** [data.rotY || 0] *)
Definition or_zero (v : option num) : num :=
  match v with
  | None => Fin 0
  | Some a => if truthy a then a else Fin 0
  end.

Definition on_placeBuild (sid : string) (data : BuildData) (s : State)
  : State * list Event :=
  let b := mkBuild (nextBuildId s) sid (dtype data)
                   (clamp (dx data)) (clamp (dy data)) (clamp (dz data))
                   (or_zero (drotY data)) in
  (mkState (players s) (builds s ++ [b]) (nextBuildId s + 1)%Z,
   [buildPlaced b]).

Definition on_disconnect (sid : string) (s : State) : State * list Event :=
  (mkState (delete sid (players s))
           (filter (fun b => negb (String.eqb (ownerId b) sid)) (builds s))
           (nextBuildId s),
   [playerLeft sid]).

(** The [setInterval] callback. *)
Definition on_tick (s : State) : State * list Event :=
  (s, [worldState (players s) (builds s)]).

(** ** Runs of the server

    The dispatcher is single threaded: a run is a list of handler
    invocations, each one completed before the next. *)

Inductive Command : Type :=
| Connect (sid : string) (u1 u2 : R)
| Move (sid : string) (data : MoveData)
| Shoot (sid : string) (data : ShootData) (u1 u2 : R)
| PlaceBuild (sid : string) (data : BuildData)
| Disconnect (sid : string)
| Tick.

Definition handle (c : Command) (s : State) : State * list Event :=
  match c with
  | Connect sid u1 u2 => on_connection sid u1 u2 s
  | Move sid data => on_move sid data s
  | Shoot sid data u1 u2 => on_shoot sid data u1 u2 s
  | PlaceBuild sid data => on_placeBuild sid data s
  | Disconnect sid => on_disconnect sid s
  | Tick => on_tick s
  end.

Fixpoint run (cs : list Command) (s : State) : State * list Event :=
  match cs with
  | [] => (s, [])
  | c :: rest =>
      let '(s1, ev1) := handle c s in
      let '(s2, ev2) := run rest s1 in
      (s2, ev1 ++ ev2)
  end.

(** ** Vocabulary of the properties *)

(** A coordinate inside the arena: a finite number of [[-50, 50]]. *)
Definition in_arena (a : num) : Prop :=
  match a with
  | Fin r => -50 <= r <= 50
  | _ => False
  end.

(** A coordinate a spawn can produce: a finite number of [[-15, 15]]. *)
Definition in_spawn_area (a : num) : Prop :=
  match a with
  | Fin r => -15 <= r <= 15
  | _ => False
  end.

(** What [Math.random()] can return. *)
Definition unit_draw (u : R) : Prop := 0 <= u < 1.

(** The [move] carries a number for each coordinate: none is missing. *)
Definition move_ok (data : MoveData) : Prop :=
  mx data <> NaN /\ my data <> NaN /\ mz data <> NaN.

Definition input_ok (c : Command) : Prop :=
  match c with
  | Connect _ u1 u2 => unit_draw u1 /\ unit_draw u2
  | Move _ data => move_ok data
  | Shoot _ _ u1 u2 => unit_draw u1 /\ unit_draw u2
  | _ => True
  end.

Definition player_ok (p : Player) : Prop :=
  in_arena (x p) /\ in_arena (y p) /\ in_arena (z p) /\
  (0 <= health p <= 100)%Z.

(** Where a [playerJoined] or [respawn] event says the player is. *)
Definition spawn_event_ok (e : Event) : Prop :=
  match e with
  | playerJoined _ _ p =>
      in_spawn_area (x p) /\ y p = Fin 1 /\ in_spawn_area (z p)
  | respawn _ rx ry rz =>
      in_spawn_area rx /\ ry = Fin 1 /\ in_spawn_area rz
  | _ => True
  end.

Definition world_ok (s : State) : Prop :=
  forall k p, In (k, p) (players s) -> player_ok p.

Definition alive (h : Z) : Prop := (0 < h <= 100)%Z.

Definition healths_ok (s : State) : Prop :=
  forall k p, In (k, p) (players s) -> alive (health p).

(** The victim after a hit it survives. *)
Definition hurt (v : Player) : Player :=
  mkPlayer (x v) (y v) (z v) (rotationY v) (health v - 20).

(** A number that is not below zero: what a sum of squares can be. *)
Definition not_negative (a : num) : Prop :=
  match a with
  | NInf => False
  | Fin r => 0 <= r
  | _ => True
  end.

(** Zero or [NaN]: what a product with a zero can be. *)
Definition zero_or_nan (a : num) : Prop :=
  match a with
  | NaN => True
  | Fin r => r = 0
  | _ => False
  end.

(** What one entry of the map contributes to the scan: the parameter of
    its intersection if the loop body reaches the comparison with
    [closest], nothing if the entry is skipped. *)
Definition cand (sid : string) (d : ShootData) (e : string * Player)
  : option num :=
  if String.eqb (fst e) sid then None
  else if nlt (disc d (snd e)) (Fin 0) then None
  else if ngt (root_t d (snd e)) (Fin 0) then Some (root_t d (snd e))
  else None.

(** [sid] is connected and its ray [d] finds the victim [vid], whose
    stored record is [v]. *)
Definition targets (sid : string) (d : ShootData) (vid : string)
  (v : Player) (s : State) : Prop :=
  lookup sid (players s) <> None /\
  resolveHit sid d (players s) = Some vid /\
  lookup vid (players s) = Some v.

(** The hit test of the collision engine, as the design states it. *)
Definition is_hit (d : ShootData) (pl : Player) : Prop :=
  nle (Fin 0) (disc d pl) = true /\ nlt (Fin 0) (root_t d pl) = true.


Definition zero_vec : Vec3 := mkVec3 (Fin 0) (Fin 0) (Fin 0).

(** The health values an event shows to whoever receives it. *)
Definition shown_healths (e : Event) : list Z :=
  match e with
  | initState _ _ ps _ => map (fun kp => health (snd kp)) ps
  | playerJoined _ _ p => [health p]
  | playerHit _ h => [h]
  | worldState ps _ => map (fun kp => health (snd kp)) ps
  | _ => []
  end.

Definition is_respawn (e : Event) : bool :=
  match e with respawn _ _ _ _ => true | _ => false end.

(** The ids handed out, read off the [buildPlaced] events. *)
Definition placed_ids (evs : list Event) : list Z :=
  flat_map (fun e => match e with buildPlaced b => [id b] | _ => [] end) evs.

(** The stored builds are in increasing order of id, below the counter. *)
Definition builds_ok (s : State) : Prop :=
  StronglySorted Z.lt (map id (builds s)) /\
  Forall (fun b => (id b < nextBuildId s)%Z) (builds s).

Definition BUILD_TYPES : list string :=
  ["wall"; "floor"; "ramp"; "roof"]%string.

(** [l1] is [l2] with some elements left out, the others in place. *)
Inductive Subseq {A : Type} : list A -> list A -> Prop :=
| Subseq_nil : Subseq [] []
| Subseq_skip : forall a l1 l2, Subseq l1 l2 -> Subseq l1 (a :: l2)
| Subseq_keep : forall a l1 l2, Subseq l1 l2 -> Subseq (a :: l1) (a :: l2).

(** Two player maps with the same keys in the same order and the same
    position under each key. *)
Definition same_place (e1 e2 : string * Player) : Prop :=
  fst e1 = fst e2 /\
  x (snd e1) = x (snd e2) /\ y (snd e1) = y (snd e2) /\ z (snd e1) = z (snd e2).

Definition same_geometry (ps1 ps2 : Players) : Prop :=
  Forall2 same_place ps1 ps2.

(** ** Vocabulary of further properties of the server *)

(** The health values the server ever stores. *)
Definition HEALTH_LEVELS : list Z := [20; 40; 60; 80; 100]%Z.

(** A [move] or a [shoot] sent by [sid]. *)
Definition acts_of (sid : string) (c : Command) : Prop :=
  match c with
  | Move s _ => s = sid
  | Shoot s _ _ _ => s = sid
  | _ => False
  end.

(** Every build is owned by a session that has a player. *)
Definition owners_live (s : State) : Prop :=
  forall b, In b (builds s) -> lookup (ownerId b) (players s) <> None.

(** Along the run, every [placeBuild] comes from a session that has a
    player when the handler runs. *)
Fixpoint placements_live (cs : list Command) (s : State) : Prop :=
  match cs with
  | [] => True
  | c :: rest =>
      match c with
      | PlaceBuild sid _ => lookup sid (players s) <> None
      | _ => True
      end /\ placements_live rest (fst (handle c s))
  end.

(** The coordinates of a [placeBuild] message are numbers. *)
Definition place_ok (c : Command) : Prop :=
  match c with
  | PlaceBuild _ data => dx data <> NaN /\ dy data <> NaN /\ dz data <> NaN
  | _ => True
  end.

Definition is_placement (c : Command) : bool :=
  match c with PlaceBuild _ _ => true | _ => false end.

Definition is_tick (c : Command) : bool :=
  match c with Tick => true | _ => false end.

Definition is_worldState (e : Event) : bool :=
  match e with worldState _ _ => true | _ => false end.

(** * The browser client

    The script the server sends to the browser: the HUD, the input
    handlers, the part of the animation loop that moves the local player,
    and the socket listeners.  Rendering (scene graph, camera, lights,
    preview mesh) is outside: a mesh is the data its constructor was
    given.  three.js is not part of the repository: the results of a
    raycast and the camera are arguments of the handlers that use them,
    and [Vector3.normalize], [Vector3.lerp] and [MathUtils.lerpAngle]
    are parameters.

    The objects [otherPlayers] and [builds] are used as maps.  Their
    keys are the socket ids socket.io generates and the build ids of the
    server, none of which names a member of [Object.prototype]: a lookup
    finds what was stored under the key and nothing else.  The type of a
    build is whatever a client sent, and the lookup of its colour takes
    the inherited members into account. *)

Module Client.

(** [Math.round]: the nearest integer, a tie going up. *)
Definition Math_round (a : num) : num :=
  match a with
  | Fin r => Fin (IZR (Int_part (r + 0.5)))
  | _ => a
  end.

Definition Math_abs (a : num) : num :=
  match a with
  | NaN => NaN
  | PInf | NInf => PInf
  | Fin r => Fin (Rabs r)
  end.

Definition Math_sin (a : num) : num :=
  match a with Fin r => Fin (sin r) | _ => NaN end.

Definition Math_cos (a : num) : num :=
  match a with Fin r => Fin (cos r) | _ => NaN end.

Definition Math_PI : num := Fin PI.

(** Own properties of an object literal with string values. *)
Fixpoint prop (k : string) (o : list (string * string)) : option string :=
  match o with
  | [] => None
  | (k', v) :: rest => if String.eqb k' k then Some v else prop k rest
  end.

Definition BUILD_TYPES : list (string * string) :=
  [("Q", "wall"); ("C", "floor"); ("V", "ramp"); ("Shift", "roof")]%string.

Definition BUILD_COLORS : list (string * string) :=
  [("wall", "#888"); ("floor", "#777"); ("ramp", "#666");
   ("roof", "#555")]%string.

Definition PLAYER_COLOR : string := "#00ff00".
Definition OTHER_COLOR : string := "#0077ff".
Definition GRID_SIZE : num := Fin 1.

(** A string is truthy unless it is empty. *)
Definition truthy_string (v : option string) : option string :=
  match v with
  | Some EmptyString => None
  | _ => v
  end.

(** ** State *)

(** [color] is the colour string given to the material, [None] when
    the value given is not a string. *)
Record Mesh : Type := mkMesh {
  geometry : Vec3;
  color : option string;
  position : Vec3;
  rotation_y : num
}.

Record Keys : Type := mkKeys {
  moveForward : bool;
  moveBackward : bool;
  moveLeft : bool;
  moveRight : bool;
  wantJump : bool
}.

(** The variables of the client closure.  [healthFill] is the width of
    the health bar, in percent; [buildSelected] the text of the HUD. *)
Record State : Type := mkState {
  myHealth : num;
  healthFill : num;
  buildSelected : string;
  otherPlayers : list (string * Mesh);
  builds : list (Z * Mesh);
  myId : option string;
  myMesh : option Mesh;
  myYaw : num;
  velocityY : num;
  keys : Keys;
  selectedBuild : option string
}.

(** The state when the script has run its top level: [setHealth(100)],
    nothing selected, nobody known. *)
Definition start : State :=
  mkState (Fin 100) (Fin 100) "None" [] [] None None (Fin 0) (Fin 0)
          (mkKeys false false false false false) None.

Definition with_health (h : num) (c : State) : State :=
  mkState h h (buildSelected c) (otherPlayers c) (builds c) (myId c)
          (myMesh c) (myYaw c) (velocityY c) (keys c) (selectedBuild c).

Definition with_selected (ty text : string) (c : State) : State :=
  mkState (myHealth c) (healthFill c) text (otherPlayers c) (builds c)
          (myId c) (myMesh c) (myYaw c) (velocityY c) (keys c) (Some ty).

Definition with_otherPlayers (o : list (string * Mesh)) (c : State) : State :=
  mkState (myHealth c) (healthFill c) (buildSelected c) o (builds c) (myId c)
          (myMesh c) (myYaw c) (velocityY c) (keys c) (selectedBuild c).

Definition with_builds (b : list (Z * Mesh)) (c : State) : State :=
  mkState (myHealth c) (healthFill c) (buildSelected c) (otherPlayers c) b
          (myId c) (myMesh c) (myYaw c) (velocityY c) (keys c)
          (selectedBuild c).

Definition with_myId (i : option string) (c : State) : State :=
  mkState (myHealth c) (healthFill c) (buildSelected c) (otherPlayers c)
          (builds c) i (myMesh c) (myYaw c) (velocityY c) (keys c)
          (selectedBuild c).

Definition with_myMesh (m : option Mesh) (c : State) : State :=
  mkState (myHealth c) (healthFill c) (buildSelected c) (otherPlayers c)
          (builds c) (myId c) m (myYaw c) (velocityY c) (keys c)
          (selectedBuild c).

Definition with_myYaw (a : num) (c : State) : State :=
  mkState (myHealth c) (healthFill c) (buildSelected c) (otherPlayers c)
          (builds c) (myId c) (myMesh c) a (velocityY c) (keys c)
          (selectedBuild c).

Definition with_velocityY (v : num) (c : State) : State :=
  mkState (myHealth c) (healthFill c) (buildSelected c) (otherPlayers c)
          (builds c) (myId c) (myMesh c) (myYaw c) v (keys c)
          (selectedBuild c).

Definition with_keys (k : Keys) (c : State) : State :=
  mkState (myHealth c) (healthFill c) (buildSelected c) (otherPlayers c)
          (builds c) (myId c) (myMesh c) (myYaw c) (velocityY c) k
          (selectedBuild c).

(** The variables the user acts on, and those the HUD shows. *)
Definition controls (c : State) : num * Keys * option string * string :=
  (myYaw c, keys c, selectedBuild c, buildSelected c).

Definition hud (c : State) : num * num * option string :=
  (myHealth c, healthFill c, myId c).

(** Objects used as maps: [otherPlayers] by socket id, [builds] by id. *)
Fixpoint get {K V : Type} (eqb : K -> K -> bool) (k : K) (o : list (K * V))
  : option V :=
  match o with
  | [] => None
  | (k', v) :: rest => if eqb k' k then Some v else get eqb k rest
  end.

Fixpoint put {K V : Type} (eqb : K -> K -> bool) (k : K) (v : V)
  (o : list (K * V)) : list (K * V) :=
  match o with
  | [] => [(k, v)]
  | (k', v') :: rest =>
      if eqb k' k then (k', v) :: rest else (k', v') :: put eqb k v rest
  end.

Fixpoint del {K V : Type} (eqb : K -> K -> bool) (k : K) (o : list (K * V))
  : list (K * V) :=
  match o with
  | [] => []
  | (k', v') :: rest =>
      if eqb k' k then del eqb k rest else (k', v') :: del eqb k rest
  end.

(** ** HUD *)

Definition setHealth (v : num) (c : State) : State :=
  with_health (Math_max (Fin 0) (Math_min (Fin 100) v)) c.

(** [setBuild(name)]: the text is [name || 'None']. *)
Definition build_text (name : string) : string :=
  match name with EmptyString => "None"%string | _ => name end.

(** ** Input *)

(** What the client sends. *)
Inductive Msg : Type :=
| move (data : MoveData)
| shoot (data : ShootData)
| placeBuild (data : BuildData).

Definition on_mousemove (locked : bool) (movementX : num) (c : State)
  : State :=
  if negb locked then c
  else
    let y1 := nsub (myYaw c) (nmul movementX (Fin 0.002)) in
    let y2 := if ngt y1 Math_PI then nsub y1 (nmul (Fin 2) Math_PI) else y1 in
    let y3 := if nlt y2 (nneg Math_PI)
              then nadd y2 (nmul (Fin 2) Math_PI) else y2 in
    with_myYaw y3 c.

Definition one_of (code : string) (cases : list string) : bool :=
  existsb (String.eqb code) cases.

Definition on_keydown (code : string) (c : State) : State :=
  let k := keys c in
  if one_of code ["KeyW"; "ArrowUp"]%string then
    with_keys (mkKeys true (moveBackward k) (moveLeft k) (moveRight k)
                      (wantJump k)) c
  else if one_of code ["KeyS"; "ArrowDown"]%string then
    with_keys (mkKeys (moveForward k) true (moveLeft k) (moveRight k)
                      (wantJump k)) c
  else if one_of code ["KeyA"; "ArrowLeft"]%string then
    with_keys (mkKeys (moveForward k) (moveBackward k) true (moveRight k)
                      (wantJump k)) c
  else if one_of code ["KeyD"; "ArrowRight"]%string then
    with_keys (mkKeys (moveForward k) (moveBackward k) (moveLeft k) true
                      (wantJump k)) c
  else if one_of code ["Space"]%string then
    with_keys (mkKeys (moveForward k) (moveBackward k) (moveLeft k)
                      (moveRight k) true) c
  else if one_of code ["KeyQ"; "KeyC"; "KeyV"; "ShiftLeft";
                       "ShiftRight"]%string then
    match truthy_string (prop code BUILD_TYPES) with
    | Some ty => with_selected ty (build_text ty) c
    | None => c
    end
  else c.

Definition on_keyup (code : string) (c : State) : State :=
  let k := keys c in
  if one_of code ["KeyW"; "ArrowUp"]%string then
    with_keys (mkKeys false (moveBackward k) (moveLeft k) (moveRight k)
                      (wantJump k)) c
  else if one_of code ["KeyS"; "ArrowDown"]%string then
    with_keys (mkKeys (moveForward k) false (moveLeft k) (moveRight k)
                      (wantJump k)) c
  else if one_of code ["KeyA"; "ArrowLeft"]%string then
    with_keys (mkKeys (moveForward k) (moveBackward k) false (moveRight k)
                      (wantJump k)) c
  else if one_of code ["KeyD"; "ArrowRight"]%string then
    with_keys (mkKeys (moveForward k) (moveBackward k) (moveLeft k) false
                      (wantJump k)) c
  else if one_of code ["Space"]%string then
    with_keys (mkKeys (moveForward k) (moveBackward k) (moveLeft k)
                      (moveRight k) false) c
  else c.

(** [Math.round(v / GRID_SIZE) * GRID_SIZE] *)
Definition snap (v : num) : num :=
  nmul (Math_round (ndiv v GRID_SIZE)) GRID_SIZE.

(** [Math.round(myYaw / (Math.PI/2)) * (Math.PI/2)] *)
Definition snap_yaw (a : num) : num :=
  nmul (Math_round (ndiv a (ndiv Math_PI (Fin 2)))) (ndiv Math_PI (Fin 2)).

(** [mousedown].  [camPos] and [camDir] are the world position and
    direction of the camera, [hits] the points the raycast from the
    centre of the screen returns, nearest first. *)
Definition on_mousedown (button : Z) (camPos camDir : Vec3)
  (hits : list Vec3) (c : State) : list Msg :=
  if (button =? 0)%Z then [shoot (mkShoot camPos camDir)]
  else if (button =? 2)%Z then
    match truthy_string (selectedBuild c) with
    | None => []
    | Some ty =>
        match hits with
        | [] => []
        | pt :: _ =>
            [placeBuild (mkBuildData ty (snap (vx pt)) (snap (vy pt))
                                     (snap (vz pt))
                                     (Some (snap_yaw (myYaw c))))]
        end
    end
  else [].

(** ** Meshes *)

Definition player_mesh (col : string) (p : Player) : Mesh :=
  mkMesh (mkVec3 (Fin 1) (Fin 2) (Fin 1)) (Some col)
         (mkVec3 (x p) (y p) (z p)) (Fin 0).

Definition addRemotePlayer (pid : string) (p : Player) (c : State) : State :=
  with_otherPlayers
    (put String.eqb pid (player_mesh OTHER_COLOR p) (otherPlayers c)) c.

Definition addMyPlayer (pid : string) (p : Player) (c : State) : State :=
  setHealth (Fin (IZR (health p)))
    (with_myId (Some pid)
       (with_myMesh (Some (player_mesh PLAYER_COLOR p)) c)).

(** The names an object literal inherits from [Object.prototype]; each
    of them is bound to a function or an object, which is truthy. *)
Definition OBJECT_PROTOTYPE : list string :=
  ["constructor"; "__defineGetter__"; "__defineSetter__"; "hasOwnProperty";
   "__lookupGetter__"; "__lookupSetter__"; "isPrototypeOf";
   "propertyIsEnumerable"; "toString"; "valueOf"; "__proto__";
   "toLocaleString"]%string.

(** [BUILD_COLORS[build.type] || '#777'] *)
Definition build_color (ty : string) : option string :=
  match truthy_string (prop ty BUILD_COLORS) with
  | Some col => Some col
  | None =>
      if existsb (String.eqb ty) OBJECT_PROTOTYPE then None
      else Some "#777"%string
  end.

Definition addBuild (b : Build) (c : State) : State :=
  match get Z.eqb (id b) (builds c) with
  | Some _ => c
  | None =>
      let mesh := mkMesh (mkVec3 (Fin 1.8) (Fin 1.8) (Fin 1.8))
                         (build_color (type b))
                         (mkVec3 (bx b) (by_ b) (bz b))
                         (or_zero (Some (rotY b))) in
      with_builds (put Z.eqb (id b) mesh (builds c)) c
  end.

Definition is_me (pid : string) (c : State) : bool :=
  match myId c with
  | Some me => String.eqb pid me
  | None => false
  end.

(** The events of the server that reach the socket [me]: [socket.emit]
    and [io.to(id).emit] go to one socket, [socket.broadcast.emit] to
    all the others, [io.emit] to all. *)
Definition reaches (me : string) (e : Event) : bool :=
  match e with
  | initState to _ _ _ => String.eqb to me
  | playerJoined except _ _ => negb (String.eqb except me)
  | respawn to _ _ _ => String.eqb to me
  | _ => true
  end.

(** What the user does. *)
Inductive Input : Type :=
| KeyDown (code : string)
| KeyUp (code : string)
| MouseMove (locked : bool) (movementX : num).

Definition on_input (i : Input) (c : State) : State :=
  match i with
  | KeyDown code => on_keydown code c
  | KeyUp code => on_keyup code c
  | MouseMove locked movementX => on_mousemove locked movementX c
  end.

Section THREE.

(** [v.normalize()] in animate; [a.lerp(b, t)] and [lerpAngle(a, b, t)]
    in the [worldState] listener. *)
Variable normalize : Vec3 -> Vec3.
Variable lerp : Vec3 -> Vec3 -> num -> Vec3.
Variable lerpAngle : num -> num -> num -> num.

(** ** The local player in the animation loop

    [dt] is what [clock.getDelta()] returns.  The result is the state
    after the frame and the [move] it sends. *)
Definition lengthSq (v : Vec3) : num :=
  nadd (nadd (nmul (vx v) (vx v)) (nmul (vy v) (vy v))) (nmul (vz v) (vz v)).

Definition wish_dir (k : Keys) : Vec3 :=
  let z1 := if moveForward k then nsub (Fin 0) (Fin 1) else Fin 0 in
  let z2 := if moveBackward k then nadd z1 (Fin 1) else z1 in
  let x1 := if moveLeft k then nsub (Fin 0) (Fin 1) else Fin 0 in
  let x2 := if moveRight k then nadd x1 (Fin 1) else x1 in
  mkVec3 x2 (Fin 0) z2.

Definition animate (dt : num) (c : State) : State * list Msg :=
  match myMesh c with
  | None => (c, [])
  | Some mesh =>
      let speed := Fin 8 in
      let pos := position mesh in
      let dir := wish_dir (keys c) in
      let '(px, pz) :=
        if ngt (lengthSq dir) (Fin 0) then
          let n := normalize dir in
          let sn := Math_sin (myYaw c) in
          let cs := Math_cos (myYaw c) in
          let ddx := nsub (nmul (vx n) cs) (nmul (vz n) sn) in
          let ddz := nadd (nmul (vx n) sn) (nmul (vz n) cs) in
          (nadd (vx pos) (nmul (nmul ddx speed) dt),
           nadd (vz pos) (nmul (nmul ddz speed) dt))
        else (vx pos, vz pos) in
      let v0 :=
        if wantJump (keys c) &&
           nlt (Math_abs (nsub (vy pos) (Fin 1))) (Fin 0.01)
        then Fin 5 else velocityY c in
      let v1 := nsub v0 (nmul (Fin 9.8) dt) in
      let py1 := nadd (vy pos) (nmul v1 dt) in
      let '(py, v2) := if nlt py1 (Fin 1) then (Fin 1, Fin 0) else (py1, v1) in
      let mesh' := mkMesh (geometry mesh) (color mesh) (mkVec3 px py pz)
                          (rotation_y mesh) in
      (with_velocityY v2 (with_myMesh (Some mesh') c),
       [move (mkMove px py pz (myYaw c))])
  end.

(** ** Socket listeners *)

Definition on_initState (selfId : string) (ps : Players) (bs : list Build)
  (c : State) : State :=
  let c1 := with_myId (Some selfId) c in
  let c2 := fold_left (fun acc e =>
                         if is_me (fst e) acc
                         then addMyPlayer (fst e) (snd e) acc
                         else addRemotePlayer (fst e) (snd e) acc) ps c1 in
  fold_left (fun acc b => addBuild b acc) bs c2.

Definition on_playerJoined (pid : string) (p : Player) (c : State) : State :=
  if is_me pid c then c else addRemotePlayer pid p c.

Definition on_playerLeft (pid : string) (c : State) : State :=
  match get String.eqb pid (otherPlayers c) with
  | Some _ => with_otherPlayers (del String.eqb pid (otherPlayers c)) c
  | None => c
  end.

Definition on_worldState (ps : Players) (bs : list Build) (c : State)
  : State :=
  let c1 :=
    fold_left
      (fun acc e =>
         let '(pid, p) := e in
         if is_me pid acc then acc
         else
           match get String.eqb pid (otherPlayers acc) with
           | None => addRemotePlayer pid p acc
           | Some mesh =>
               let mesh' :=
                 mkMesh (geometry mesh) (color mesh)
                        (lerp (position mesh) (mkVec3 (x p) (y p) (z p))
                              (Fin 0.2))
                        (lerpAngle (rotation_y mesh) (rotationY p)
                                   (Fin 0.2)) in
               with_otherPlayers
                 (put String.eqb pid mesh' (otherPlayers acc)) acc
           end) ps c in
  fold_left (fun acc b => addBuild b acc) bs c1.

Definition on_playerHit (victimId : string) (newHealth : Z) (c : State)
  : State :=
  if is_me victimId c then setHealth (Fin (IZR newHealth)) c else c.

Definition on_respawn (rx ry rz : num) (c : State) : State :=
  match myMesh c with
  | Some mesh =>
      with_myMesh (Some (mkMesh (geometry mesh) (color mesh)
                                (mkVec3 rx ry rz) (rotation_y mesh))) c
  | None => c
  end.

(** What the listeners do with an event of the server. *)
Definition on_event (e : Event) (c : State) : State :=
  match e with
  | initState _ selfId ps bs => on_initState selfId ps bs c
  | playerJoined _ pid p => on_playerJoined pid p c
  | respawn _ rx ry rz => on_respawn rx ry rz c
  | playerHit victimId newHealth => on_playerHit victimId newHealth c
  | buildPlaced b => addBuild b c
  | playerLeft pid => on_playerLeft pid c
  | worldState ps bs => on_worldState ps bs c
  end.

(** The listeners run on the events of a server run that reach [me]. *)
Definition hear (me : string) (evs : list Event) (c : State) : State :=
  fold_left (fun acc e => on_event e acc) (filter (reaches me) evs) c.

(** ** The life of a client

    What can happen to the client: the user does something, the server
    sends an event, the browser asks for a frame, the user presses a
    mouse button. *)
Inductive Step : Type :=
| Do (i : Input)
| Hear (e : Event)
| Frame (dt : num)
| Click (button : Z) (camPos camDir : Vec3) (hits : list Vec3).

Definition step (st : Step) (c : State) : State * list Msg :=
  match st with
  | Do i => (on_input i c, [])
  | Hear e => (on_event e c, [])
  | Frame dt => animate dt c
  | Click button camPos camDir hits =>
      (c, on_mousedown button camPos camDir hits c)
  end.

Fixpoint play (sts : list Step) (c : State) : State * list Msg :=
  match sts with
  | [] => (c, [])
  | st :: rest =>
      let '(c1, out1) := step st c in
      let '(c2, out2) := play rest c1 in
      (c2, out1 ++ out2)
  end.

End THREE.

(** A mouse movement that turns the view by at most a full turn. *)
Definition gentle (st : Step) : Prop :=
  match st with
  | Do (MouseMove true (Fin m)) => - (2 * PI) <= m * 0.002 <= 2 * PI
  | Do (MouseMove true _) => False
  | _ => True
  end.

(** [Vector3.normalize] as three.js has it: [divideScalar(length() || 1)],
    where [divideScalar(s)] multiplies by [1 / s]. *)
Definition Vector3_normalize (v : Vec3) : Vec3 :=
  let len := nsqrt (lengthSq v) in
  let s := ndiv (Fin 1) (if truthy len then len else Fin 1) in
  mkVec3 (nmul (vx v) s) (nmul (vy v) s) (nmul (vz v) s).

(** The keys of a state with [wantJump] set as given. *)
Definition with_wantJump (j : bool) (c : State) : State :=
  with_keys (mkKeys (moveForward (keys c)) (moveBackward (keys c))
                    (moveLeft (keys c)) (moveRight (keys c)) j) c.

End Client.

(** * Properties *)

(** ** Comparisons of reals *)

Lemma Rltb_true (a b : R) : Rltb a b = true <-> a < b.
Proof.
  unfold Rltb. destruct (Rlt_dec a b); split; intros; auto; discriminate.
Qed.

Lemma Rltb_false (a b : R) : Rltb a b = false <-> b <= a.
Proof.
  unfold Rltb. destruct (Rlt_dec a b); split; intros; auto; try discriminate; lra.
Qed.

Lemma Reqb_true (a b : R) : Reqb a b = true <-> a = b.
Proof.
  unfold Reqb. destruct (Req_dec_T a b); split; intros; auto; discriminate.
Qed.

Lemma Reqb_false (a b : R) : Reqb a b = false <-> a <> b.
Proof.
  unfold Reqb. destruct (Req_dec_T a b); split; intros; auto;
    try discriminate; contradiction.
Qed.

(** Decide every comparison of reals in sight and keep the facts. *)
Ltac split_reals :=
  repeat progress (simpl in *; match goal with
  | |- context [Rltb ?a ?b] =>
      let E := fresh "E" in
      destruct (Rltb a b) eqn:E;
      [apply Rltb_true in E | apply Rltb_false in E]
  | |- context [Reqb ?a ?b] =>
      let E := fresh "E" in
      destruct (Reqb a b) eqn:E;
      [apply Reqb_true in E | apply Reqb_false in E]
  | H : context [Rltb ?a ?b] |- _ =>
      let E := fresh "E" in
      destruct (Rltb a b) eqn:E;
      [apply Rltb_true in E | apply Rltb_false in E]
  | H : context [Reqb ?a ?b] |- _ =>
      let E := fresh "E" in
      destruct (Reqb a b) eqn:E;
      [apply Reqb_true in E | apply Reqb_false in E]
  end).

Ltac real_facts :=
  simpl in *; split_reals; simpl in *;
  try discriminate; try congruence; try lra; try (f_equal; lra).

(** ** The order on numbers *)

Lemma nlt_trans (a b c : num) :
  nlt a b = true -> nlt b c = true -> nlt a c = true.
Proof.
  destruct a, b, c; simpl; intros H1 H2; try discriminate; auto.
  apply Rltb_true in H1, H2. apply Rltb_true. lra.
Qed.

Lemma nlt_below (a b c : num) :
  nlt a c = true -> nlt b c = false -> b <> NaN -> nlt a b = true.
Proof.
  destruct a, b, c; simpl; intros H1 H2 H3; try discriminate; auto;
    try congruence.
  apply Rltb_true in H1. apply Rltb_false in H2. apply Rltb_true. lra.
Qed.

Lemma nlt_not_nan_l (a b : num) : nlt a b = true -> a <> NaN.
Proof. destruct a; simpl; congruence. Qed.

Lemma nlt_not_nan_r (a b : num) : nlt a b = true -> b <> NaN.
Proof. destruct a, b; simpl; congruence. Qed.

Lemma nle_of_not_lt (a b : num) :
  a <> NaN -> b <> NaN -> nlt b a = false -> nle a b = true.
Proof.
  destruct a, b; simpl; intros; try congruence. now rewrite H1.
Qed.


Lemma nlt_irrefl (a : num) : nlt a a = false.
Proof. destruct a; simpl; auto. apply Rltb_false. lra. Qed.

(** ** [clamp] *)

Lemma clamp_in_arena (v : num) : v <> NaN -> in_arena (clamp v).
Proof.
  intros Hv. unfold clamp, ARENA_LIMIT, Math_max, Math_min.
  destruct v; try congruence; real_facts.
Qed.

Lemma clamp_id (v : num) : in_arena v -> clamp v = v.
Proof.
  unfold clamp, ARENA_LIMIT, Math_max, Math_min.
  destruct v; simpl; try contradiction. intros H.
  real_facts; f_equal; lra.
Qed.

Lemma clamp_high (v : num) : nlt (Fin 50) v = true -> clamp v = Fin 50.
Proof.
  unfold clamp, ARENA_LIMIT, Math_max, Math_min.
  destruct v; simpl; try discriminate; intros H; real_facts.
Qed.

Lemma clamp_low (v : num) : nlt v (Fin (-50)) = true -> clamp v = Fin (-50).
Proof.
  unfold clamp, ARENA_LIMIT, Math_max, Math_min.
  destruct v; simpl; try discriminate; intros H; real_facts.
Qed.

Lemma clamp_fin (r : R) : -50 <= r <= 50 -> clamp (Fin r) = Fin r.
Proof. intros H. now apply clamp_id. Qed.

(** [Math.min] and [Math.max] let [NaN] through: [clamp] bounds numbers
    only. *)
Remark clamp_nan : clamp NaN = NaN.
Proof. reflexivity. Qed.

Create HintDb arena.
#[local] Hint Resolve clamp_in_arena clamp_id clamp_high clamp_low : arena.

(** ** The player map *)

Lemma lookup_set_same (k : string) (p : Player) (ps : Players) :
  lookup k (set k p ps) = Some p.
Proof.
  induction ps as [|[k' p'] rest IH]; simpl.
  - now rewrite String.eqb_refl.
  - destruct (String.eqb k' k) eqn:E; simpl; rewrite E; auto.
Qed.

Lemma lookup_set_other (k k' : string) (p : Player) (ps : Players) :
  k' <> k -> lookup k' (set k p ps) = lookup k' ps.
Proof.
  intros Hne. induction ps as [|[k0 p0] rest IH]; simpl.
  - apply String.eqb_neq in Hne. rewrite String.eqb_sym. now rewrite Hne.
  - destruct (String.eqb k0 k) eqn:E; simpl.
    + apply String.eqb_eq in E; subst k0.
      assert (String.eqb k k' = false) as ->; auto.
      apply String.eqb_neq; congruence.
    + now rewrite IH.
Qed.

Lemma lookup_delete_same (k : string) (ps : Players) :
  lookup k (delete k ps) = None.
Proof.
  induction ps as [|[k' p'] rest IH]; simpl; auto.
  destruct (String.eqb k' k) eqn:E; simpl; auto. now rewrite E.
Qed.

Lemma lookup_delete_other (k k' : string) (ps : Players) :
  k' <> k -> lookup k' (delete k ps) = lookup k' ps.
Proof.
  intros Hne. induction ps as [|[k0 p0] rest IH]; simpl; auto.
  destruct (String.eqb k0 k) eqn:E; simpl.
  - apply String.eqb_eq in E; subst k0.
    assert (String.eqb k k' = false) as ->; auto.
    apply String.eqb_neq; congruence.
  - now rewrite IH.
Qed.

Lemma In_set (e : string * Player) (k : string) (p : Player) (ps : Players) :
  In e (set k p ps) -> e = (k, p) \/ In e ps.
Proof.
  induction ps as [|[k' p'] rest IH]; simpl.
  - intros [H|[]]; auto.
  - destruct (String.eqb k' k) eqn:E; simpl.
    + apply String.eqb_eq in E; subst k'. intros [H|H]; auto.
    + intros [H|H]; auto. destruct (IH H); auto.
Qed.

Lemma In_delete (e : string * Player) (k : string) (ps : Players) :
  In e (delete k ps) <-> In e ps /\ fst e <> k.
Proof.
  induction ps as [|[k' p'] rest IH]; simpl.
  - tauto.
  - destruct (String.eqb k' k) eqn:E; simpl.
    + apply String.eqb_eq in E; subst k'. rewrite IH. split.
      * tauto.
      * intros [[H|H] Hne]; auto. subst e. simpl in Hne. congruence.
    + apply String.eqb_neq in E. rewrite IH. split.
      * intros [H|H]; [subst e; simpl; auto | tauto].
      * tauto.
Qed.

Lemma In_lookup (k : string) (p : Player) (ps : Players) :
  In (k, p) ps -> exists q, lookup k ps = Some q.
Proof.
  induction ps as [|[k' p'] rest IH]; simpl; [tauto|].
  intros [H|H].
  - inversion H; subst. rewrite String.eqb_refl. eauto.
  - destruct (String.eqb k' k); eauto.
Qed.

Lemma lookup_In (k : string) (p : Player) (ps : Players) :
  lookup k ps = Some p -> In (k, p) ps.
Proof.
  induction ps as [|[k' p'] rest IH]; simpl; [discriminate|].
  destruct (String.eqb k' k) eqn:E; auto.
  apply String.eqb_eq in E. intros H; inversion H; subst; auto.
Qed.

Lemma Subseq_refl {A : Type} (l : list A) : Subseq l l.
Proof. induction l; [apply Subseq_nil | now apply Subseq_keep]. Qed.

Lemma Subseq_filter {A : Type} (f : A -> bool) (l : list A) :
  Subseq (filter f l) l.
Proof.
  induction l as [|a l IH]; simpl; [apply Subseq_nil|].
  destruct (f a); [now apply Subseq_keep | now apply Subseq_skip].
Qed.

Lemma Subseq_delete (k : string) (ps : Players) : Subseq (delete k ps) ps.
Proof.
  induction ps as [|[k' p'] rest IH]; simpl; [apply Subseq_nil|].
  destruct (String.eqb k' k); [now apply Subseq_skip | now apply Subseq_keep].
Qed.

(** ** Runs *)

Lemma run_cons (c : Command) (cs : list Command) (s : State) :
  run (c :: cs) s =
    (fst (run cs (fst (handle c s))),
     snd (handle c s) ++ snd (run cs (fst (handle c s)))).
Proof.
  simpl. destruct (handle c s) as [s1 e1]. simpl.
  destruct (run cs s1); reflexivity.
Qed.

Lemma run_app (cs1 cs2 : list Command) (s : State) :
  run (cs1 ++ cs2) s =
    (fst (run cs2 (fst (run cs1 s))),
     snd (run cs1 s) ++ snd (run cs2 (fst (run cs1 s)))).
Proof.
  revert s. induction cs1 as [|c cs1 IH]; intros s.
  - simpl. now destruct (run cs2 s).
  - rewrite <- app_comm_cons. rewrite !run_cons. rewrite IH. simpl.
    now rewrite app_assoc.
Qed.

(** A property kept by every handler is kept by every run. *)
Lemma run_invariant (P : State -> Prop) (Q : Command -> Prop) :
  (forall c s, Q c -> P s -> P (fst (handle c s))) ->
  forall cs s, Forall Q cs -> P s -> P (fst (run cs s)).
Proof.
  intros Hstep cs. induction cs as [|c cs IH]; intros s HQ HP; [exact HP|].
  inversion HQ; subst. rewrite run_cons. cbn [fst]. apply IH; auto.
Qed.

Lemma placed_ids_app (e1 e2 : list Event) :
  placed_ids (e1 ++ e2) = placed_ids e1 ++ placed_ids e2.
Proof. unfold placed_ids. apply flat_map_app. Qed.

(** ** Placement *)

Lemma on_placeBuild_eq (sid : string) (data : BuildData) (s : State) :
  on_placeBuild sid data s =
    let b := mkBuild (nextBuildId s) sid (dtype data)
                     (clamp (dx data)) (clamp (dy data)) (clamp (dz data))
                     (or_zero (drotY data)) in
    (mkState (players s) (builds s ++ [b]) (nextBuildId s + 1)%Z,
     [buildPlaced b]).
Proof. reflexivity. Qed.

(** C9.  A placement is never refused and its position is clamped: the
    handler always stores one more build and announces it; the stored
    [x], [y], [z] are [clamp] of the values of the command; [x = 1000] is
    stored as [50]; and [clamp] sends every number into [[-50, 50]],
    leaving the numbers of the arena alone and sending the others to the
    nearer bound. *)
Theorem placeBuild_clamps (sid : string) (data : BuildData) (s : State) :
  exists b,
    on_placeBuild sid data s =
      (mkState (players s) (builds s ++ [b]) (nextBuildId s + 1)%Z,
       [buildPlaced b]) /\
    bx b = clamp (dx data) /\ by_ b = clamp (dy data) /\
    bz b = clamp (dz data) /\
    (dx data = Fin 1000 -> bx b = Fin 50) /\
    (forall v, v <> NaN -> in_arena (clamp v)) /\
    (forall v, in_arena v -> clamp v = v) /\
    (forall v, nlt (Fin 50) v = true -> clamp v = Fin 50) /\
    (forall v, nlt v (Fin (-50)) = true -> clamp v = Fin (-50)).
Proof.
  eexists. split; [apply on_placeBuild_eq|]. simpl.
  repeat split; auto with arena.
  intros ->. apply clamp_high. simpl. apply Rltb_true. lra.
Qed.

Lemma placeBuild_clamps_witness :
  exists b,
    In b (builds (fst (on_placeBuild "A"
            (mkBuildData "wall" (Fin 1000) (Fin 1) (Fin (-70)) None) init))) /\
    bx b = Fin 50 /\ bz b = Fin (-50).
Proof.
  destruct (placeBuild_clamps "A"
              (mkBuildData "wall" (Fin 1000) (Fin 1) (Fin (-70)) None) init)
    as (b & E & Hx & _ & Hz & H1000 & _ & _ & _ & Hlow).
  exists b. rewrite E. simpl. split; [auto|]. split.
  - apply H1000. reflexivity.
  - rewrite Hz. apply Hlow. simpl. apply Rltb_true. lra.
Defined.

(** ** Disconnection *)

(** C6.  [disconnect] for [sid] removes the player of [sid] and the
    builds [sid] owns, and nothing else: every other key still maps to
    the same player and keeps its place in the map; a build is kept
    exactly when its owner is another session, the kept builds stay in
    their order, and as many are kept as there were builds of other
    owners; the id counter does not move. *)
Theorem disconnect_frame (sid : string) (s : State) :
  let s' := fst (on_disconnect sid s) in
  lookup sid (players s') = None /\
  (forall k, k <> sid -> lookup k (players s') = lookup k (players s)) /\
  (forall e, In e (players s') <-> In e (players s) /\ fst e <> sid) /\
  Subseq (players s') (players s) /\
  (forall b, In b (builds s') <-> In b (builds s) /\ ownerId b <> sid) /\
  Subseq (builds s') (builds s) /\
  List.length (builds s') =
    List.length (filter (fun b => negb (String.eqb (ownerId b) sid)) (builds s)) /\
  nextBuildId s' = nextBuildId s /\
  snd (on_disconnect sid s) = [playerLeft sid].
Proof.
  cbn zeta. simpl.
  split; [apply lookup_delete_same|].
  split; [intros k Hk; now apply lookup_delete_other|].
  split; [intros e; apply In_delete|].
  split; [apply Subseq_delete|].
  split.
  { intros b. rewrite filter_In, negb_true_iff, String.eqb_neq. tauto. }
  split; [apply Subseq_filter|].
  repeat split.
Qed.

Lemma disconnect_frame_witness :
  let s := mkState [("A"%string, mkPlayer (Fin 0) (Fin 1) (Fin 0) (Fin 0) 100);
                    ("B"%string, mkPlayer (Fin 3) (Fin 1) (Fin 4) (Fin 0) 80)]
                   [mkBuild 1 "A" "wall" (Fin 5) (Fin 1) (Fin 5) (Fin 0);
                    mkBuild 2 "B" "roof" (Fin 2) (Fin 1) (Fin 2) (Fin 0)] 3 in
  lookup "B" (players (fst (on_disconnect "A" s))) = lookup "B" (players s).
Proof.
  intros s. apply (disconnect_frame "A" s). discriminate.
Defined.

(** ** Shapes of the handlers *)

Lemma applyDamage_cases (hitId : string) (victim : Player) (u1 u2 : R)
  (s : State) :
  ((health victim - 20 <= 0)%Z /\
   applyDamage hitId victim u1 u2 s =
     (mkState (set hitId (mkPlayer (spawn_coord u1) (Fin 1) (spawn_coord u2)
                                   (rotationY victim) 100) (players s))
              (builds s) (nextBuildId s),
      [respawn hitId (spawn_coord u1) (Fin 1) (spawn_coord u2);
       playerHit hitId 100])) \/
  ((0 < health victim - 20)%Z /\
   applyDamage hitId victim u1 u2 s =
     (mkState (set hitId (mkPlayer (x victim) (y victim) (z victim)
                                   (rotationY victim) (health victim - 20))
                   (players s))
              (builds s) (nextBuildId s),
      [playerHit hitId (health victim - 20)])).
Proof.
  unfold applyDamage. destruct (Z.leb_spec (health victim - 20) 0).
  - left. split; auto.
  - right. split; auto.
Qed.

Lemma on_shoot_cases (sid : string) (data : ShootData) (u1 u2 : R)
  (s : State) :
  on_shoot sid data u1 u2 s = (s, []) \/
  exists hitId victim,
    resolveHit sid data (players s) = Some hitId /\
    lookup hitId (players s) = Some victim /\
    on_shoot sid data u1 u2 s = applyDamage hitId victim u1 u2 s.
Proof.
  unfold on_shoot. destruct (lookup sid (players s)); auto.
  destruct (resolveHit sid data (players s)) as [hitId|]; auto.
  destruct (String.eqb hitId ""); auto.
  destruct (lookup hitId (players s)) as [victim|] eqn:E; auto.
  right. exists hitId, victim. auto.
Qed.

Lemma on_move_cases (sid : string) (data : MoveData) (s : State) :
  (lookup sid (players s) = None /\ on_move sid data s = (s, [])) \/
  exists p,
    lookup sid (players s) = Some p /\
    on_move sid data s =
      (mkState (set sid (mkPlayer (clamp (mx data)) (clamp (my data))
                                  (clamp (mz data)) (mrotationY data)
                                  (health p)) (players s))
               (builds s) (nextBuildId s), []).
Proof.
  unfold on_move. destruct (lookup sid (players s)) as [p|]; eauto.
Qed.

(** [move] and [shoot] are dropped when the session has no player. *)
Lemma on_move_stale (sid : string) (data : MoveData) (s : State) :
  lookup sid (players s) = None -> on_move sid data s = (s, []).
Proof. intros H. unfold on_move. now rewrite H. Qed.

Lemma on_shoot_stale (sid : string) (data : ShootData) (u1 u2 : R)
  (s : State) :
  lookup sid (players s) = None -> on_shoot sid data u1 u2 s = (s, []).
Proof. intros H. unfold on_shoot. now rewrite H. Qed.

(** Only [placeBuild] and [disconnect] touch the builds, and only
    [placeBuild] moves the counter. *)
Lemma handle_builds (c : Command) (s : State) :
  match c with
  | PlaceBuild _ _ | Disconnect _ => True
  | _ => builds (fst (handle c s)) = builds s
  end.
Proof.
  destruct c; simpl; auto.
  - destruct (on_move_cases sid data s) as [[_ ->]|(p & _ & ->)]; auto.
  - destruct (on_shoot_cases sid data u1 u2 s) as [->|(h & v & _ & _ & ->)]; auto.
    destruct (applyDamage_cases h v u1 u2 s) as [[_ ->]|[_ ->]]; auto.
Qed.

Lemma handle_next (c : Command) (s : State) :
  match c with
  | PlaceBuild _ _ =>
      placed_ids (snd (handle c s)) = [nextBuildId s] /\
      nextBuildId (fst (handle c s)) = (nextBuildId s + 1)%Z
  | _ =>
      placed_ids (snd (handle c s)) = [] /\
      nextBuildId (fst (handle c s)) = nextBuildId s
  end.
Proof.
  destruct c; simpl; auto.
  - destruct (on_move_cases sid data s) as [[_ ->]|(p & _ & ->)]; auto.
  - destruct (on_shoot_cases sid data u1 u2 s) as [->|(h & v & _ & _ & ->)]; auto.
    destruct (applyDamage_cases h v u1 u2 s) as [[_ ->]|[_ ->]]; auto.
Qed.

(** ** Build ids *)

Lemma StronglySorted_lt_NoDup (l : list Z) :
  StronglySorted Z.lt l -> NoDup l.
Proof.
  induction 1 as [|a l Hs IH Hall]; constructor; auto.
  intros Hin. rewrite Forall_forall in Hall. specialize (Hall a Hin). lia.
Qed.

Lemma StronglySorted_snoc (l : list Z) (a : Z) :
  StronglySorted Z.lt l -> Forall (fun i => (i < a)%Z) l ->
  StronglySorted Z.lt (l ++ [a]).
Proof.
  induction 1 as [|b l Hs IH Hall]; intros Hlt; simpl.
  - repeat constructor.
  - inversion Hlt; subst. constructor; auto.
    apply Forall_app. split; auto.
Qed.

Lemma StronglySorted_filter_ids (f : Build -> bool) (l : list Build) :
  StronglySorted Z.lt (map id l) -> StronglySorted Z.lt (map id (filter f l)).
Proof.
  induction l as [|b l IH]; simpl; auto.
  intros H. inversion H; subst. destruct (f b); simpl; auto.
  constructor; auto.
  rewrite Forall_forall in *. intros i Hi. apply H3.
  apply in_map_iff in Hi. destruct Hi as (b' & <- & Hb').
  apply in_map. apply filter_In in Hb'. tauto.
Qed.

(** The ids handed out during a run are consecutive from the counter. *)
Lemma run_ids (cs : list Command) (s : State) :
  (nextBuildId s <= nextBuildId (fst (run cs s)))%Z /\
  StronglySorted Z.lt (placed_ids (snd (run cs s))) /\
  Forall (fun i => (nextBuildId s <= i < nextBuildId (fst (run cs s)))%Z)
         (placed_ids (snd (run cs s))).
Proof.
  revert s. induction cs as [|c cs IH]; intros s.
  - simpl. repeat split; try lia; constructor.
  - rewrite run_cons. cbn [fst snd]. rewrite placed_ids_app.
    destruct (IH (fst (handle c s))) as (Hle & Hs & Hall).
    pose proof (handle_next c s) as Hn.
    assert ((placed_ids (snd (handle c s)) = [] /\
             nextBuildId (fst (handle c s)) = nextBuildId s) \/
            (placed_ids (snd (handle c s)) = [nextBuildId s] /\
             nextBuildId (fst (handle c s)) = (nextBuildId s + 1)%Z))
      as [[-> E]|[-> E]] by (destruct c; tauto).
    + rewrite E in *. simpl. auto.
    + rewrite E in *. simpl. split; [lia|]. split.
      * constructor; auto. eapply Forall_impl; [|exact Hall].
        simpl. intros; lia.
      * constructor; [lia|]. eapply Forall_impl; [|exact Hall].
        simpl. intros; lia.
Qed.

Lemma handle_builds_ok (c : Command) (s : State) :
  builds_ok s -> builds_ok (fst (handle c s)).
Proof.
  intros [Hs Hb]. unfold builds_ok.
  pose proof (handle_builds c s) as HB. pose proof (handle_next c s) as HN.
  destruct c; try (destruct HN as [_ ->]; rewrite HB; auto; fail).
  - simpl. split.
    + rewrite map_app. simpl. apply StronglySorted_snoc; auto.
      rewrite Forall_map. exact Hb.
    + apply Forall_app. split.
      * eapply Forall_impl; [|exact Hb]. simpl. intros; lia.
      * repeat constructor. simpl. lia.
  - simpl. split.
    + now apply StronglySorted_filter_ids.
    + rewrite Forall_forall in *. intros b Hin. apply Hb.
      apply filter_In in Hin. tauto.
Qed.

Lemma handle_build_origin (c : Command) (s : State) (b : Build) :
  In b (builds (fst (handle c s))) ->
  In b (builds s) \/
  exists data, c = PlaceBuild (ownerId b) data /\ type b = dtype data /\
               In (buildPlaced b) (snd (handle c s)).
Proof.
  pose proof (handle_builds c s) as HB.
  destruct c; try (rewrite HB; auto; fail); simpl.
  - rewrite in_app_iff. simpl. intros [H|[H|[]]]; auto.
    right. exists data. subst b. simpl. auto.
  - intros H. apply filter_In in H. tauto.
Qed.

Lemma run_build_origin (cs : list Command) (s : State) (b : Build) :
  In b (builds (fst (run cs s))) ->
  In b (builds s) \/
  exists data, In (PlaceBuild (ownerId b) data) cs /\ type b = dtype data /\
               In (buildPlaced b) (snd (run cs s)).
Proof.
  revert s. induction cs as [|c cs IH]; intros s; [simpl; auto|].
  rewrite run_cons. cbn [fst snd]. intros H.
  destruct (IH _ H) as [H1|(data & H1 & H2 & H3)].
  - destruct (handle_build_origin _ _ _ H1) as [H2|(data & -> & H2 & H3)]; auto.
    right. exists data. split; [now left|]. split; [exact H2|].
    apply in_or_app; auto.
  - right. exists data. split; [now right|]. split; [exact H2|].
    apply in_or_app; auto.
Qed.

Lemma placed_ids_In (b : Build) (evs : list Event) :
  In (buildPlaced b) evs -> In (id b) (placed_ids evs).
Proof.
  intros H. unfold placed_ids. apply in_flat_map.
  exists (buildPlaced b). simpl. auto.
Qed.

(** C5.  In every run of the server from its start, the ids handed out,
    in the order of the placements, strictly increase, so no two are
    equal; each lies between 1 and the counter; every stored build
    carries an id that was handed out, and the stored builds are in
    increasing order of id; and whatever happens afterwards, disconnects
    included, every id handed out later is greater than every id handed
    out before. *)
Theorem build_ids_increase (cs : list Command) :
  let s := fst (run cs init) in
  let evs := snd (run cs init) in
  StronglySorted Z.lt (placed_ids evs) /\
  NoDup (placed_ids evs) /\
  Forall (fun i => (1 <= i < nextBuildId s)%Z) (placed_ids evs) /\
  (forall b, In b (builds s) -> In (id b) (placed_ids evs)) /\
  StronglySorted Z.lt (map id (builds s)) /\
  (forall cs',
     Forall (fun j => Forall (fun i => (i < j)%Z) (placed_ids evs))
            (placed_ids (snd (run cs' s)))).
Proof.
  intros s evs. destruct (run_ids cs init) as (Hle & Hs & Hall).
  fold s evs in Hle, Hs, Hall. simpl in Hle, Hall.
  split; [exact Hs|]. split; [now apply StronglySorted_lt_NoDup|].
  split; [exact Hall|]. split.
  { intros b Hb. destruct (run_build_origin cs init b Hb) as [[]|(d & _ & _ & H)].
    now apply placed_ids_In. }
  split.
  { apply (run_invariant builds_ok (fun _ => True)).
    - intros c s0 _. apply handle_builds_ok.
    - apply Forall_forall. auto.
    - split; simpl; constructor. }
  intros cs'. destruct (run_ids cs' s) as (_ & _ & Hall').
  eapply Forall_impl; [|exact Hall']. simpl. intros j Hj.
  eapply Forall_impl; [|exact Hall]. simpl. intros; lia.
Qed.

Lemma build_ids_increase_witness :
  let wall := mkBuildData "wall" (Fin 5) (Fin 1) (Fin 5) None in
  let cs := [Connect "A" 0.5 0.5; PlaceBuild "A" wall; Disconnect "A";
             Connect "B" 0.5 0.5; PlaceBuild "B" wall] in
  In (mkBuild 2 "B" "wall" (clamp (Fin 5)) (clamp (Fin 1)) (clamp (Fin 5))
              (Fin 0))
     (builds (fst (run cs init))) /\
  In 2%Z (placed_ids (snd (run cs init))).
Proof.
  intros wall cs.
  assert (In (mkBuild 2 "B" "wall" (clamp (Fin 5)) (clamp (Fin 1))
                      (clamp (Fin 5)) (Fin 0))
             (builds (fst (run cs init)))) as Hin by (left; reflexivity).
  split; [exact Hin|].
  exact (proj1 (proj2 (proj2 (proj2 (build_ids_increase cs)))) _ Hin).
Defined.

(** ** Build types *)

(** C7, as the code has it.  The server stores the type a [placeBuild]
    message carries without looking at it: every stored build was placed
    by a command of the run, sent by its owner, and has the type of that
    command.  So the stored types are within wall, floor, ramp, roof as
    soon as the types of the commands are. *)
Theorem build_type_from_command (cs : list Command) (b : Build) :
  In b (builds (fst (run cs init))) ->
  (exists data, In (PlaceBuild (ownerId b) data) cs /\ type b = dtype data) /\
  ((forall sid data, In (PlaceBuild sid data) cs ->
                     In (dtype data) BUILD_TYPES) ->
   In (type b) BUILD_TYPES).
Proof.
  intros Hb.
  destruct (run_build_origin cs init b Hb) as [[]|(data & Hc & Ht & _)].
  split; [eauto|]. intros Hall. rewrite Ht. eapply Hall; eauto.
Qed.

Lemma build_type_from_command_witness :
  let roof := mkBuildData "roof" (Fin 5) (Fin 1) (Fin 5) None in
  let cs := [Connect "A" 0.5 0.5; PlaceBuild "A" roof] in
  let b := mkBuild 1 "A" "roof" (clamp (Fin 5)) (clamp (Fin 1))
                   (clamp (Fin 5)) (Fin 0) in
  In b (builds (fst (run cs init))) /\ In (type b) BUILD_TYPES.
Proof.
  intros roof cs b.
  assert (In b (builds (fst (run cs init)))) as Hin by (left; reflexivity).
  split; [exact Hin|].
  apply (proj2 (build_type_from_command cs b Hin)).
  intros sid data [H|[H|[]]]; [discriminate|].
  inversion H; subst. cbn [dtype roof BUILD_TYPES In]. auto.
Defined.

(** C7, as stated, fails: a [placeBuild] message whose type is "tower"
    leaves a build of type "tower" in the world. *)
Lemma build_type_counterexample :
  let tower := mkBuildData "tower" (Fin 5) (Fin 1) (Fin 5) None in
  let cs := [Connect "A" 0.5 0.5; PlaceBuild "A" tower] in
  exists b, In b (builds (fst (run cs init))) /\ ~ In (type b) BUILD_TYPES.
Proof.
  intros tower cs.
  exists (mkBuild 1 "A" "tower" (clamp (Fin 5)) (clamp (Fin 1))
                  (clamp (Fin 5)) (Fin 0)).
  split; [left; reflexivity|].
  cbn [type BUILD_TYPES In]. intros [H|[H|[H|[H|[]]]]]; discriminate.
Qed.

(** ** Commands of a session that has no player *)

(** C3, at the failing input.  After A has connected and left, the world
    has no player for A.  [move] and [shoot] from A are then discarded,
    but [placeBuild] from A is not: it stores build 1, moves the counter
    to 2 and announces the build. *)
Theorem placeBuild_stale_session :
  let s0 := fst (run [Connect "A" 0.5 0.5; Disconnect "A"] init) in
  let wall := mkBuildData "wall" (Fin 5) (Fin 1) (Fin 5) None in
  let b := mkBuild 1 "A" "wall" (Fin 5) (Fin 1) (Fin 5) (Fin 0) in
  s0 = init /\
  lookup "A" (players s0) = None /\
  on_move "A" (mkMove (Fin 1) (Fin 1) (Fin 1) (Fin 0)) s0 = (s0, []) /\
  on_shoot "A" (mkShoot zero_vec (mkVec3 (Fin 1) (Fin 0) (Fin 0))) 0.5 0.5 s0
    = (s0, []) /\
  on_placeBuild "A" wall s0 = (mkState [] [b] 2, [buildPlaced b]).
Proof.
  intros s0 wall b.
  assert (s0 = init) as E by reflexivity.
  rewrite E.
  split; [reflexivity|]. split; [reflexivity|].
  split; [now apply on_move_stale|]. split; [now apply on_shoot_stale|].
  rewrite on_placeBuild_eq. cbn [dtype dx dy dz drotY wall init players builds
                                  nextBuildId or_zero app Z.add Pos.add].
  rewrite !clamp_fin by lra. reflexivity.
Qed.

(** ** The arena *)

Lemma spawn_coord_fin (u : R) : spawn_coord u = Fin ((u - 0.5) * 30).
Proof. reflexivity. Qed.

Lemma spawn_coord_area (u : R) : unit_draw u -> in_spawn_area (spawn_coord u).
Proof. unfold unit_draw. rewrite spawn_coord_fin. simpl. lra. Qed.

Lemma spawn_area_in_arena (a : num) : in_spawn_area a -> in_arena a.
Proof. destruct a; simpl; auto. lra. Qed.

Lemma one_in_arena : in_arena (Fin 1).
Proof. simpl. lra. Qed.

Lemma spawn_player_ok (u1 u2 : R) (r : num) :
  unit_draw u1 -> unit_draw u2 ->
  player_ok (mkPlayer (spawn_coord u1) (Fin 1) (spawn_coord u2) r 100).
Proof.
  intros H1 H2. unfold player_ok. cbn [x y z health].
  split; [now apply spawn_area_in_arena, spawn_coord_area|].
  split; [apply one_in_arena|].
  split; [now apply spawn_area_in_arena, spawn_coord_area|lia].
Qed.

Lemma world_ok_set (k : string) (p : Player) (s : State) :
  world_ok s -> player_ok p ->
  world_ok (mkState (set k p (players s)) (builds s) (nextBuildId s)).
Proof.
  intros Hs Hp k' p' Hin. simpl in Hin.
  destruct (In_set _ _ _ _ Hin) as [E|H].
  - inversion E; subst; auto.
  - eapply Hs; eauto.
Qed.

Lemma handle_world_ok (c : Command) (s : State) :
  input_ok c -> world_ok s -> world_ok (fst (handle c s)).
Proof.
  intros Hc Hs. destruct c; simpl in *; auto.
  - destruct Hc. apply world_ok_set; auto. now apply spawn_player_ok.
  - destruct (on_move_cases sid data s) as [[_ ->]|(p & Hp & ->)]; auto.
    apply world_ok_set; auto. destruct Hc as (Hx & Hy & Hz).
    apply lookup_In, Hs in Hp. unfold player_ok in *. simpl.
    repeat split; try tauto; now apply clamp_in_arena.
  - destruct Hc as [Hu1 Hu2].
    destruct (on_shoot_cases sid data u1 u2 s)
      as [->|(h & v & _ & Hv & ->)]; auto.
    apply lookup_In, Hs in Hv.
    destruct (applyDamage_cases h v u1 u2 s) as [[_ ->]|[Hh ->]];
      apply world_ok_set; auto.
    + now apply spawn_player_ok.
    + unfold player_ok in *. simpl. repeat split; try tauto; lia.
  - intros k p Hin. simpl in Hin. apply In_delete in Hin. eapply Hs, Hin.
Qed.

Lemma handle_spawn_events (c : Command) (s : State) :
  input_ok c -> Forall spawn_event_ok (snd (handle c s)).
Proof.
  intros Hc. destruct c; cbn [handle input_ok] in *.
  - destruct Hc as [Hu1 Hu2]. unfold on_connection. cbn [snd].
    constructor; [exact I|]. constructor; [|constructor].
    cbn [spawn_event_ok x y z].
    split; [now apply spawn_coord_area|].
    split; [reflexivity | now apply spawn_coord_area].
  - destruct (on_move_cases sid data s) as [[_ ->]|(p & Hp & ->)];
      constructor.
  - destruct Hc as [Hu1 Hu2].
    destruct (on_shoot_cases sid data u1 u2 s)
      as [->|(h & v & _ & Hv & ->)]; [constructor|].
    destruct (applyDamage_cases h v u1 u2 s) as [[_ ->]|[Hh ->]]; cbn [snd].
    + constructor; [|constructor; [exact I | constructor]].
      cbn [spawn_event_ok].
      split; [now apply spawn_coord_area|].
      split; [reflexivity | now apply spawn_coord_area].
    + constructor; [exact I | constructor].
  - constructor; [exact I | constructor].
  - constructor; [exact I | constructor].
  - constructor; [exact I | constructor].
Qed.

Lemma run_spawn_events (cs : list Command) (s : State) :
  Forall input_ok cs -> Forall spawn_event_ok (snd (run cs s)).
Proof.
  revert s. induction cs as [|c cs IH]; intros s H; [constructor|].
  inversion H; subst. rewrite run_cons. cbn [snd].
  apply Forall_app. split; auto using handle_spawn_events.
Qed.

(** ** Arithmetic of the quadratic *)

Lemma nmul_self_not_negative (a : num) : not_negative (nmul a a).
Proof. destruct a; simpl; auto. nra. Qed.

Lemma nadd_not_negative (a b : num) :
  not_negative a -> not_negative b -> not_negative (nadd a b).
Proof. destruct a, b; simpl; auto; try tauto. lra. Qed.

Lemma coef_a_not_negative (d : ShootData) : not_negative (coef_a d).
Proof.
  unfold coef_a. cbn zeta.
  repeat apply nadd_not_negative; apply nmul_self_not_negative.
Qed.

Lemma nmul_zero_r (a : num) : zero_or_nan (nmul a (Fin 0)).
Proof. destruct a; simpl; auto; real_facts. Qed.

Lemma nadd_zero_or_nan (a b : num) :
  zero_or_nan a -> zero_or_nan b -> zero_or_nan (nadd a b).
Proof. destruct a, b; simpl; auto; try tauto. lra. Qed.

Lemma nmul_zero_or_nan (k : R) (a : num) :
  zero_or_nan a -> zero_or_nan (nmul (Fin k) a).
Proof. destruct a; simpl; auto; try tauto. intros ->. lra. Qed.

(** A sum of three squares is zero only if each term is. *)
Lemma sum_squares_zero (a b c : num) :
  nadd (nadd (nmul a a) (nmul b b)) (nmul c c) = Fin 0 ->
  a = Fin 0 /\ b = Fin 0 /\ c = Fin 0.
Proof.
  destruct a as [| | |p], b as [| | |q], c as [| | |r]; simpl;
    try discriminate.
  intros H. inversion H as [H0].
  assert (p = 0 /\ q = 0 /\ r = 0) as (-> & -> & ->) by (repeat split; nra).
  auto.
Qed.

Lemma coef_a_zero (d : ShootData) :
  coef_a d = Fin 0 -> direction d = zero_vec.
Proof.
  unfold coef_a. cbn zeta. intros H.
  apply sum_squares_zero in H. destruct (direction d) as [a b c].
  simpl in H. destruct H as (-> & -> & ->). reflexivity.
Qed.

Lemma coef_b_zero_direction (d : ShootData) (pl : Player) :
  direction d = zero_vec -> zero_or_nan (coef_b d pl).
Proof.
  intros H. unfold coef_b. rewrite H. cbn [vx vy vz zero_vec].
  apply nmul_zero_or_nan.
  repeat apply nadd_zero_or_nan; apply nmul_zero_r.
Qed.

(** The parameter of the smaller root, over the three coefficients. *)
Lemma root_t_eq (d : ShootData) (pl : Player) :
  root_t d pl =
    ndiv (nsub (nneg (coef_b d pl)) (nsqrt (disc d pl)))
         (nmul (Fin 2) (coef_a d)).
Proof. reflexivity. Qed.

Lemma disc_eq (d : ShootData) (pl : Player) :
  disc d pl =
    nsub (nmul (coef_b d pl) (coef_b d pl))
         (nmul (nmul (Fin 4) (coef_a d)) (coef_c d pl)).
Proof. reflexivity. Qed.

(** With [a = 0] the division is [0/0] or has a [NaN] operand. *)
Lemma root_zero_a (b c : num) :
  zero_or_nan b ->
  ndiv (nsub (nneg b)
             (nsqrt (nsub (nmul b b) (nmul (nmul (Fin 4) (Fin 0)) c))))
       (nmul (Fin 2) (Fin 0)) = NaN.
Proof.
  destruct b as [| | |rb]; simpl; try tauto. intros ->.
  destruct c as [| | |rc]; simpl.
  - reflexivity.
  - real_facts.
  - real_facts.
  - replace (0 * 0 - 4 * 0 * rc) with 0 by lra. rewrite sqrt_0.
    real_facts.
Qed.

(** A positive root needs a discriminant that is not negative. *)
Lemma root_pos_disc (a b dd : num) :
  nlt (Fin 0) (ndiv (nsub (nneg b) (nsqrt dd)) (nmul (Fin 2) a)) = true ->
  nle (Fin 0) dd = true /\ nlt dd (Fin 0) = false.
Proof.
  destruct dd as [| | |rd]; simpl.
  - destruct b; simpl; discriminate.
  - auto.
  - destruct b; simpl; discriminate.
  - destruct (Rltb rd 0) eqn:E; simpl; auto.
    destruct b; simpl; discriminate.
Qed.

(** The root is never [+Infinity]. *)
Lemma root_not_PInf (a b c : num) :
  not_negative a ->
  (a = Fin 0 -> zero_or_nan b) ->
  ndiv (nsub (nneg b) (nsqrt (nsub (nmul b b) (nmul (nmul (Fin 4) a) c))))
       (nmul (Fin 2) a) <> PInf.
Proof.
  intros Ha Hz.
  destruct a as [| | |ra].
  - destruct b, c; simpl; try discriminate;
      repeat match goal with
             | |- context [if ?g then _ else _] => destruct g; simpl
             end; discriminate.
  - destruct b as [| | |rb], c as [| | |rc]; real_facts.
  - contradiction.
  - simpl in Ha. destruct (Req_dec_T ra 0) as [->|Hne].
    + rewrite root_zero_a by auto. discriminate.
    + destruct b as [| | |rb], c as [| | |rc]; real_facts.
Qed.


(** ** The scan of the candidates *)

Section Scan.

Variable sid : string.
Variable d : ShootData.

Lemma root_t_not_PInf (pl : Player) : root_t d pl <> PInf.
Proof.
  rewrite root_t_eq, disc_eq. apply root_not_PInf.
  - apply coef_a_not_negative.
  - intros H. apply coef_b_zero_direction. now apply coef_a_zero.
Qed.

Lemma root_t_zero_a (pl : Player) :
  coef_a d = Fin 0 -> root_t d pl = NaN.
Proof.
  intros H. rewrite root_t_eq, disc_eq, H. apply root_zero_a.
  apply coef_b_zero_direction. now apply coef_a_zero.
Qed.

Lemma cand_spec (k : string) (pl : Player) (t : num) :
  cand sid d (k, pl) = Some t <->
  k <> sid /\ is_hit d pl /\ t = root_t d pl.
Proof.
  unfold cand, is_hit, ngt. cbn [fst snd]. split.
  - destruct (String.eqb k sid) eqn:Ek; [discriminate|].
    apply String.eqb_neq in Ek.
    destruct (nlt (disc d pl) (Fin 0)) eqn:Ed; [discriminate|].
    destruct (nlt (Fin 0) (root_t d pl)) eqn:Et; [|discriminate].
    intros H. inversion H; subst. repeat split; auto.
    rewrite root_t_eq in Et. now apply root_pos_disc in Et.
  - intros (Hk & [Hd Ht] & ->). apply String.eqb_neq in Hk. rewrite Hk.
    pose proof Ht as Ht'. rewrite root_t_eq in Ht'.
    apply root_pos_disc in Ht'. destruct Ht' as [_ ->]. now rewrite Ht.
Qed.

Lemma cand_none (k : string) (pl : Player) :
  cand sid d (k, pl) = None <-> (k <> sid -> ~ is_hit d pl).
Proof.
  split.
  - intros H Hk Hh.
    assert (cand sid d (k, pl) = Some (root_t d pl)) as E
      by (apply cand_spec; auto).
    congruence.
  - intros H. destruct (cand sid d (k, pl)) as [t|] eqn:E; auto.
    apply cand_spec in E. tauto.
Qed.

(** The parameter of a candidate is a number. *)
Lemma cand_number (e : string * Player) (t : num) :
  cand sid d e = Some t -> t <> NaN.
Proof.
  destruct e as [k pl]. intros H. apply cand_spec in H.
  destruct H as (_ & [_ Ht] & ->). eapply nlt_not_nan_r; eauto.
Qed.

(** The parameter of a candidate is a positive finite number. *)
Lemma cand_finite (e : string * Player) (t : num) :
  cand sid d e = Some t -> nlt t PInf = true /\ t <> NaN.
Proof.
  destruct e as [k pl]. intros H. apply cand_spec in H.
  destruct H as (_ & [_ Ht] & ->).
  pose proof (root_t_not_PInf pl) as Hp.
  destruct (root_t d pl); simpl in *; try discriminate; try congruence.
  split; [reflexivity | discriminate].
Qed.

Lemma scan_cand (acc : option string * num) (e : string * Player) :
  scan sid d acc e =
    match cand sid d e with
    | Some t => if nlt t (snd acc) then (Some (fst e), t) else acc
    | None => acc
    end.
Proof.
  destruct e as [k pl]. unfold scan, cand. cbn [fst snd].
  destruct (String.eqb k sid); auto.
  destruct (nlt (disc d pl) (Fin 0)); auto.
  destruct (ngt (root_t d pl) (Fin 0)); auto.
Qed.

(** What the loop returns, from any accumulator: either nothing beats
    [closest] and the accumulator comes back, or the result is the first
    entry with the least parameter among those that beat it. *)
Lemma scan_fold (ps : Players) (acc : option string * num) :
  (fold_left (scan sid d) ps acc = acc /\
   forall e t, In e ps -> cand sid d e = Some t -> nlt t (snd acc) = false) \/
  (exists l1 k pl l2 t,
     ps = l1 ++ (k, pl) :: l2 /\
     fold_left (scan sid d) ps acc = (Some k, t) /\
     cand sid d (k, pl) = Some t /\
     nlt t (snd acc) = true /\
     (forall e t', In e l1 -> cand sid d e = Some t' -> nlt t t' = true) /\
     (forall e t', In e l2 -> cand sid d e = Some t' -> nlt t' t = false)).
Proof.
  revert acc. induction ps as [|e rest IH]; intros acc.
  - left. simpl. split; auto. intros e t [].
  - cbn [fold_left]. rewrite scan_cand.
    destruct (cand sid d e) as [t0|] eqn:Ec.
    + destruct (nlt t0 (snd acc)) eqn:Elt.
      * (* the entry becomes the closest so far *)
        right. destruct (IH (Some (fst e), t0))
          as [[E Hall]|(l1 & k & pl & l2 & t & Hps & E & Hc & Hlt & H1 & H2)].
        -- exists [], (fst e), (snd e), rest, t0. cbn [app snd] in *.
           rewrite <- surjective_pairing. repeat split; auto.
           all: try (intros e' t' []).
        -- exists (e :: l1), k, pl, l2, t. cbn [snd] in Hlt.
           repeat split; auto.
           ++ rewrite Hps. reflexivity.
           ++ eapply nlt_trans; eauto.
           ++ intros e' t' [<-|Hin] Hc'; [|eauto].
              rewrite Ec in Hc'. inversion Hc'; subst. exact Hlt.
      * (* the entry does not beat the closest so far *)
        destruct (IH acc)
          as [[E Hall]|(l1 & k & pl & l2 & t & Hps & E & Hc & Hlt & H1 & H2)].
        -- left. split; auto. intros e' t' [<-|Hin] Hc'; [|eauto].
           rewrite Ec in Hc'. inversion Hc'; subst. exact Elt.
        -- right. exists (e :: l1), k, pl, l2, t. repeat split; auto.
           ++ rewrite Hps. reflexivity.
           ++ intros e' t' [<-|Hin] Hc'; [|eauto].
              rewrite Ec in Hc'. inversion Hc'; subst.
              eapply nlt_below; eauto. eapply cand_number; eauto.
    + destruct (IH acc)
        as [[E Hall]|(l1 & k & pl & l2 & t & Hps & E & Hc & Hlt & H1 & H2)].
      * left. split; auto. intros e' t' [<-|Hin] Hc'; [congruence|eauto].
      * right. exists (e :: l1), k, pl, l2, t. repeat split; auto.
        -- rewrite Hps. reflexivity.
        -- intros e' t' [<-|Hin] Hc'; [congruence|eauto].
Qed.

Lemma resolveHit_some (ps : Players) (v : string) :
  resolveHit sid d ps = Some v ->
  exists l1 pl l2,
    ps = l1 ++ (v, pl) :: l2 /\
    v <> sid /\ is_hit d pl /\
    (forall k pl', In (k, pl') l1 -> k <> sid -> is_hit d pl' ->
                   nlt (root_t d pl) (root_t d pl') = true) /\
    (forall k pl', In (k, pl') l2 -> k <> sid -> is_hit d pl' ->
                   nlt (root_t d pl') (root_t d pl) = false).
Proof.
  unfold resolveHit, resolve. intros H.
  destruct (scan_fold ps (None, PInf))
    as [[E _]|(l1 & k & pl & l2 & t & Hps & E & Hc & _ & H1 & H2)];
    rewrite E in H; [discriminate|].
  inversion H; subst k. apply cand_spec in Hc. destruct Hc as (Hv & Hh & ->).
  exists l1, pl, l2. repeat split; auto; try apply Hh.
  - intros k pl' Hin Hk Hh'. apply (H1 (k, pl')); auto.
    apply cand_spec; auto.
  - intros k pl' Hin Hk Hh'. apply (H2 (k, pl')); auto.
    apply cand_spec; auto.
Qed.

Lemma resolveHit_found (ps : Players) (v : string) :
  resolveHit sid d ps = Some v -> exists victim, lookup v ps = Some victim.
Proof.
  intros H. destruct (resolveHit_some ps v H) as (l1 & pl & l2 & -> & _).
  apply (In_lookup v pl). apply in_elt.
Qed.

Lemma resolveHit_none (ps : Players) :
  resolveHit sid d ps = None <->
  forall k pl, In (k, pl) ps -> k <> sid -> ~ is_hit d pl.
Proof.
  unfold resolveHit, resolve. split.
  - intros H k pl Hin. apply cand_none.
    destruct (scan_fold ps (None, PInf))
      as [[E Hall]|(l1 & k' & pl' & l2 & t & Hps & E & _)];
      rewrite E in H; [|discriminate].
    destruct (cand sid d (k, pl)) as [t|] eqn:Ec; auto.
    specialize (Hall _ _ Hin Ec). apply cand_finite in Ec.
    cbn [snd] in Hall. destruct Ec. congruence.
  - intros Hall.
    destruct (scan_fold ps (None, PInf))
      as [[E _]|(l1 & k' & pl' & l2 & t & Hps & E & Hc & _)];
      rewrite E; auto.
    apply cand_spec in Hc. destruct Hc as (Hk & Hh & _).
    exfalso. apply (Hall k' pl'); auto.
    rewrite Hps. apply in_elt.
Qed.



Lemma is_hit_not_nan (pl : Player) :
  is_hit d pl -> root_t d pl <> NaN.
Proof. intros [_ H]. eapply nlt_not_nan_r; eauto. Qed.


(** The scan reads the keys and the positions, nothing else. *)
Lemma cand_same_place (e1 e2 : string * Player) :
  same_place e1 e2 -> cand sid d e1 = cand sid d e2.
Proof.
  destruct e1 as [k1 [x1 y1 z1 r1 h1]], e2 as [k2 [x2 y2 z2 r2 h2]].
  unfold same_place. simpl. intros (-> & -> & -> & ->). reflexivity.
Qed.

Lemma resolve_same_geometry (ps1 ps2 : Players) :
  same_geometry ps1 ps2 -> resolve sid d ps1 = resolve sid d ps2.
Proof.
  unfold resolve. intros H. generalize (@None string, PInf).
  induction H as [|e1 e2 l1 l2 He Hl IH]; intros acc; cbn [fold_left]; auto.
  rewrite !scan_cand, (cand_same_place e1 e2 He).
  destruct He as [-> _]. apply IH.
Qed.

End Scan.

Lemma same_geometry_refl (ps : Players) : same_geometry ps ps.
Proof.
  induction ps; constructor; auto. unfold same_place. auto.
Qed.

Lemma same_geometry_set (k : string) (p p' : Player) (ps : Players) :
  lookup k ps = Some p ->
  x p' = x p -> y p' = y p -> z p' = z p ->
  same_geometry ps (set k p' ps).
Proof.
  intros Hl Hx Hy Hz. induction ps as [|[k0 p0] rest IH]; simpl in *.
  - discriminate.
  - destruct (String.eqb k0 k) eqn:E.
    + inversion Hl; subst p0. constructor.
      * unfold same_place. simpl. auto.
      * apply same_geometry_refl.
    + constructor; [unfold same_place; auto | now apply IH].
Qed.

(** A ray along the x axis, aimed at the centre of the sphere from
    outside: the discriminant is 1 and the ray enters the sphere half a
    unit before the centre. *)
Lemma head_on (ox px py pz : R) (rot : num) (h : Z) :
  let d := mkShoot (mkVec3 (Fin ox) (Fin (py + 0.5)) (Fin pz))
                   (mkVec3 (Fin 1) (Fin 0) (Fin 0)) in
  let pl := mkPlayer (Fin px) (Fin py) (Fin pz) rot h in
  disc d pl = Fin 1 /\ root_t d pl = Fin (px - ox - 0.5).
Proof.
  intros d pl.
  assert (disc d pl = Fin 1) as Hd.
  { unfold disc, coef_a, coef_b, coef_c, oc, radius. simpl. f_equal. lra. }
  split; [exact Hd|].
  rewrite root_t_eq, Hd. unfold coef_a, coef_b, oc. simpl.
  assert (Rltb 1 0 = false) as -> by (apply Rltb_false; lra).
  unfold ndiv.
  assert (Reqb (2 * (1 * 1 + 0 * 0 + 0 * 0)) 0 = false) as ->
    by (apply Reqb_false; lra).
  rewrite sqrt_1. f_equal. lra.
Qed.

Lemma head_on_hit (ox px py pz : R) (rot : num) (h : Z) :
  ox < px - 0.5 ->
  is_hit (mkShoot (mkVec3 (Fin ox) (Fin (py + 0.5)) (Fin pz))
                  (mkVec3 (Fin 1) (Fin 0) (Fin 0)))
         (mkPlayer (Fin px) (Fin py) (Fin pz) rot h).
Proof.
  intros H. destruct (head_on ox px py pz rot h) as [Hd Ht].
  unfold is_hit. rewrite Hd, Ht. simpl. split.
  - apply negb_true_iff, Rltb_false. lra.
  - apply Rltb_true. lra.
Qed.



(** ** Hit resolution *)



(** C10.  The victim, when there is one, is the first entry of the map,
    in iteration order, among the candidates with the least root: every
    candidate before it has a strictly greater root, every candidate
    after it a root at least as great.  The result depends on nothing
    but the keys, their order and the positions. *)
Theorem resolveHit_first_of_ties (sid : string) (d : ShootData)
  (ps : Players) (v : string) :
  resolveHit sid d ps = Some v ->
  (exists l1 pl l2,
     ps = l1 ++ (v, pl) :: l2 /\ v <> sid /\ is_hit d pl /\
     (forall k pl', In (k, pl') l1 -> k <> sid -> is_hit d pl' ->
        nlt (root_t d pl) (root_t d pl') = true) /\
     (forall k pl', In (k, pl') l2 -> k <> sid -> is_hit d pl' ->
        nle (root_t d pl) (root_t d pl') = true)) /\
  (forall ps', same_geometry ps ps' -> resolveHit sid d ps' = Some v).
Proof.
  intros Hv. split.
  - destruct (resolveHit_some _ _ _ _ Hv)
      as (l1 & pl & l2 & Hps & Hne & Hh & H1 & H2).
    exists l1, pl, l2. repeat split; auto; try apply Hh.
    intros k pl' Hin Hk Hh'.
    apply nle_of_not_lt; eauto using is_hit_not_nan.
  - intros ps' Hg. unfold resolveHit in *.
    now rewrite <- (resolve_same_geometry sid d ps ps' Hg).
Qed.

Lemma tie_example :
  let d := mkShoot (mkVec3 (Fin 0) (Fin (1 + 0.5)) (Fin 0))
                   (mkVec3 (Fin 1) (Fin 0) (Fin 0)) in
  let pA := mkPlayer (Fin 0) (Fin 1) (Fin 0) (Fin 0) 100 in
  let pB := mkPlayer (Fin 5) (Fin 1) (Fin 0) (Fin 0) 100 in
  let pC := mkPlayer (Fin 5) (Fin 1) (Fin 0) (Fin 3) 60 in
  resolveHit "A" d [("A"%string, pA); ("B"%string, pB); ("C"%string, pC)]
    = Some "B"%string.
Proof.
  intros d pA pB pC.
  assert (cand "A" d ("A"%string, pA) = None) as HA by reflexivity.
  assert (cand "A" d ("B"%string, pB) = Some (Fin (5 - 0 - 0.5))) as HB.
  { apply cand_spec. split; [discriminate|]. split.
    - apply head_on_hit. lra.
    - symmetry. apply head_on. }
  assert (cand "A" d ("C"%string, pC) = Some (Fin (5 - 0 - 0.5))) as HC.
  { apply cand_spec. split; [discriminate|]. split.
    - apply head_on_hit. lra.
    - symmetry. apply head_on. }
  clearbody d pA pB pC.
  unfold resolveHit, resolve. cbn [fold_left].
  rewrite !scan_cand, ?HA, HB. cbn [snd nlt fst].
  rewrite HC, nlt_irrefl. reflexivity.
Qed.

Lemma resolveHit_first_of_ties_witness :
  let d := mkShoot (mkVec3 (Fin 0) (Fin (1 + 0.5)) (Fin 0))
                   (mkVec3 (Fin 1) (Fin 0) (Fin 0)) in
  let pA := mkPlayer (Fin 0) (Fin 1) (Fin 0) (Fin 0) 100 in
  let pB := mkPlayer (Fin 5) (Fin 1) (Fin 0) (Fin 0) 100 in
  let pC := mkPlayer (Fin 5) (Fin 1) (Fin 0) (Fin 3) 60 in
  let ps := [("A"%string, pA); ("B"%string, pB); ("C"%string, pC)] in
  resolveHit "A" d ps = Some "B"%string /\
  root_t d pB = root_t d pC /\
  exists l1 pl l2, ps = l1 ++ ("B"%string, pl) :: l2 /\ is_hit d pl.
Proof.
  intros d pA pB pC ps.
  split; [apply tie_example|]. split; [reflexivity|].
  destruct (proj1 (resolveHit_first_of_ties "A" d ps "B" tie_example))
    as (l1 & pl & l2 & Hps & _ & Hh & _).
  exists l1, pl, l2. auto.
Defined.

(** ** A direction of length zero *)

(** C8.  When the direction of a shot is the zero vector, the
    coefficient [a] is zero, the root of every candidate is [NaN], so no
    candidate is a hit and there is no victim; the handler returns the
    state it was given and emits nothing.  A direction with [a = 0] is
    the zero vector. *)
Theorem shoot_zero_direction (sid : string) (data : ShootData) (u1 u2 : R)
  (s : State) :
  direction data = zero_vec ->
  coef_a data = Fin 0 /\
  (forall pl, root_t data pl = NaN /\ ~ is_hit data pl) /\
  resolveHit sid data (players s) = None /\
  on_shoot sid data u1 u2 s = (s, []) /\
  (forall data', coef_a data' = Fin 0 -> direction data' = zero_vec).
Proof.
  intros Hz.
  assert (coef_a data = Fin 0) as Ha.
  { unfold coef_a. rewrite Hz. simpl. f_equal. lra. }
  assert (forall pl, root_t data pl = NaN /\ ~ is_hit data pl) as Hno.
  { intros pl. pose proof (root_t_zero_a data pl Ha) as Ht.
    split; auto. intros [_ H]. rewrite Ht in H. discriminate. }
  assert (resolveHit sid data (players s) = None) as Hr.
  { apply resolveHit_none. intros k pl _ _. apply Hno. }
  repeat split; auto; try apply Hno.
  - unfold on_shoot. rewrite Hr. now destruct (lookup sid (players s)).
  - apply coef_a_zero.
Qed.

Lemma shoot_zero_direction_witness :
  let s := mkState [("A"%string, mkPlayer (Fin 0) (Fin 1) (Fin 0) (Fin 0) 100);
                    ("B"%string, mkPlayer (Fin 0) (Fin 1) (Fin 0) (Fin 0) 100)]
                   [] 1 in
  let data := mkShoot (mkVec3 (Fin 0) (Fin 1.5) (Fin 0)) zero_vec in
  on_shoot "A" data 0.5 0.5 s = (s, []).
Proof.
  intros s data.
  apply (shoot_zero_direction "A" data 0.5 0.5 s). reflexivity.
Defined.

(** ** Health *)

Lemma healths_ok_set (k : string) (p : Player) (s : State) :
  healths_ok s -> alive (health p) ->
  healths_ok (mkState (set k p (players s)) (builds s) (nextBuildId s)).
Proof.
  intros Hs Hp k' p' Hin. simpl in Hin.
  destruct (In_set _ _ _ _ Hin) as [E|H].
  - inversion E; subst; auto.
  - eapply Hs; eauto.
Qed.

Lemma healths_ok_shown (s : State) :
  healths_ok s ->
  Forall alive (map (fun kp => health (snd kp)) (players s)).
Proof.
  intros Hs. apply Forall_forall. intros h Hin.
  apply in_map_iff in Hin. destruct Hin as ([k p] & <- & Hin).
  eapply Hs; eauto.
Qed.

Ltac show_alive :=
  repeat first
    [ apply Forall_nil
    | apply Forall_cons; [unfold alive; simpl; lia|] ].

Lemma handle_healths (c : Command) (s : State) :
  healths_ok s ->
  healths_ok (fst (handle c s)) /\
  Forall alive (flat_map shown_healths (snd (handle c s))).
Proof.
  intros Hs. destruct c; cbn [handle].
  - assert (healths_ok (fst (on_connection sid u1 u2 s))) as H1.
    { apply healths_ok_set; auto. unfold alive. simpl. lia. }
    split; auto. unfold on_connection in *. cbn [fst snd flat_map] in *.
    cbn [shown_healths]. rewrite app_nil_r. apply Forall_app. split.
    + now apply healths_ok_shown in H1.
    + show_alive.
  - destruct (on_move_cases sid data s) as [[_ ->]|(p & Hp & ->)];
      cbn [fst snd flat_map]; split; auto.
    apply healths_ok_set; auto. apply lookup_In in Hp.
    cbn [health]. exact (Hs _ _ Hp).
  - destruct (on_shoot_cases sid data u1 u2 s)
      as [->|(h & v & _ & Hv & ->)]; [cbn [fst snd flat_map]; auto|].
    apply lookup_In, Hs in Hv. unfold alive in Hv.
    destruct (applyDamage_cases h v u1 u2 s) as [[_ ->]|[Hh ->]];
      cbn [fst snd flat_map shown_healths app]; split;
      try (apply healths_ok_set; auto; unfold alive; simpl; lia);
      show_alive.
  - cbn [on_placeBuild fst snd flat_map shown_healths app]. split; auto.
  - cbn [on_disconnect fst snd flat_map shown_healths app]. split; auto.
    intros k p Hin. simpl in Hin. apply In_delete in Hin. eapply Hs, Hin.
  - cbn [on_tick fst snd flat_map shown_healths]. split; auto.
    rewrite app_nil_r. now apply healths_ok_shown.
Qed.

Lemma run_healths (cs : list Command) (s : State) :
  healths_ok s ->
  healths_ok (fst (run cs s)) /\
  Forall alive (flat_map shown_healths (snd (run cs s))).
Proof.
  revert s. induction cs as [|c cs IH]; intros s Hs.
  - simpl. auto.
  - rewrite run_cons. cbn [fst snd]. rewrite flat_map_app.
    destruct (handle_healths c s Hs) as [H1 H2].
    destruct (IH _ H1) as [H3 H4]. split; auto.
    apply Forall_app. auto.
Qed.

(** ** The arena and the health of every reachable state *)

(** C2, as the code has it.  In every state a run of the server reaches
    from its start, every stored player has health in [[0, 100]].  When
    [Math.random()] returns numbers of [[0, 1)] and every [move] message
    carried a number for [x], [y] and [z], every stored player also has
    [x], [y] and [z] in [[-50, 50]], and spawn and respawn positions are
    in [[-15,15] x {1} x [-15,15]].  [move] stores the clamped
    coordinates without checking them: the clamp of a number is in
    [[-50, 50]], the clamp of a missing coordinate is [NaN]. *)
Theorem players_stay_in_arena (cs : list Command) :
  (forall k p, In (k, p) (players (fst (run cs init))) ->
               (0 <= health p <= 100)%Z) /\
  (Forall input_ok cs ->
   (forall k p, In (k, p) (players (fst (run cs init))) -> player_ok p) /\
   Forall spawn_event_ok (snd (run cs init))) /\
  (forall s sid data p,
     lookup sid (players s) = Some p ->
     lookup sid (players (fst (on_move sid data s))) =
       Some (mkPlayer (clamp (mx data)) (clamp (my data)) (clamp (mz data))
                      (mrotationY data) (health p))) /\
  (forall v, v <> NaN -> in_arena (clamp v)) /\
  clamp NaN = NaN.
Proof.
  split; [|split; [|split; [|split]]].
  - intros k p Hin.
    assert (healths_ok init) as H0 by (intros k' p' []).
    destruct (run_healths cs init H0) as [H _].
    specialize (H k p Hin). unfold alive in H. lia.
  - intros Hcs. split.
    + apply (run_invariant world_ok input_ok); auto.
      * apply handle_world_ok.
      * intros k p [].
    + now apply run_spawn_events.
  - intros s sid data p Hp.
    destruct (on_move_cases sid data s) as [[E _]|(p' & E & ->)];
      rewrite Hp in E; inversion E; subst.
    simpl. apply lookup_set_same.
  - intros v Hv. now apply clamp_in_arena.
  - apply clamp_nan.
Qed.

Lemma players_stay_in_arena_witness :
  let cs := [Connect "A" 0.25 0.75;
             Move "A" (mkMove (Fin 1000) PInf (Fin (-3)) (Fin 7))] in
  Forall input_ok cs /\
  player_ok (mkPlayer (clamp (Fin 1000)) (clamp PInf) (clamp (Fin (-3)))
                      (Fin 7) 100).
Proof.
  intros cs.
  assert (Forall input_ok cs) as Hcs.
  { repeat constructor; unfold unit_draw; simpl; try lra; discriminate. }
  split; [exact Hcs|].
  apply (proj1 (proj1 (proj2 (players_stay_in_arena cs)) Hcs) "A"%string).
  left. reflexivity.
Defined.

(** C2, as stated, fails: a [move] whose [x] is missing stores [NaN] as
    the [x] of the player, which is not in [[-50, 50]]. *)
Lemma players_stay_in_arena_counterexample :
  let cs := [Connect "A" 0.5 0.5;
             Move "A" (mkMove NaN (Fin 1) (Fin 2) (Fin 0))] in
  exists p, In ("A"%string, p) (players (fst (run cs init))) /\
            x p = NaN /\ ~ in_arena (x p).
Proof.
  intros cs.
  exists (mkPlayer (clamp NaN) (clamp (Fin 1)) (clamp (Fin 2)) (Fin 0) 100).
  split; [left; reflexivity|].
  cbn [x]. rewrite clamp_nan. split; [reflexivity|]. intros H. exact H.
Qed.

(** ** Five shots *)

(** A shot the victim survives: one [playerHit], and the shooter still
    has the same victim in its sights. *)
Lemma shot_survived (sid : string) (d : ShootData) (u1 u2 : R) (s : State)
  (vid : string) (v : Player) :
  targets sid d vid v s -> vid <> EmptyString ->
  (0 < health v - 20)%Z ->
  exists s',
    on_shoot sid d u1 u2 s = (s', [playerHit vid (health v - 20)]) /\
    targets sid d vid (hurt v) s'.
Proof.
  intros (Hs & Hr & Hv) Hne Hh.
  exists (mkState (set vid (hurt v) (players s)) (builds s) (nextBuildId s)).
  split.
  - unfold on_shoot. destruct (lookup sid (players s)); [|congruence].
    rewrite Hr. apply String.eqb_neq in Hne. rewrite Hne, Hv.
    destruct (applyDamage_cases vid v u1 u2 s) as [[Hle _]|[_ ->]];
      [lia | reflexivity].
  - unfold targets. cbn [players]. split; [|split].
    + destruct (String.eqb vid sid) eqn:E.
      * apply String.eqb_eq in E. subst. rewrite lookup_set_same. discriminate.
      * apply String.eqb_neq in E. rewrite lookup_set_other; auto.
    + unfold resolveHit in *.
      rewrite <- (resolve_same_geometry sid d (players s)); auto.
      now apply (same_geometry_set vid v).
    + apply lookup_set_same.
Qed.

(** The shot that brings the health to zero or below: the victim is put
    back at 100 on a fresh spawn point before anything is emitted. *)
Lemma shot_lethal (sid : string) (d : ShootData) (u1 u2 : R) (s : State)
  (vid : string) (v : Player) :
  targets sid d vid v s -> vid <> EmptyString ->
  (health v - 20 <= 0)%Z ->
  let v' := mkPlayer (spawn_coord u1) (Fin 1) (spawn_coord u2)
                     (rotationY v) 100 in
  on_shoot sid d u1 u2 s =
    (mkState (set vid v' (players s)) (builds s) (nextBuildId s),
     [respawn vid (spawn_coord u1) (Fin 1) (spawn_coord u2);
      playerHit vid 100]).
Proof.
  intros (Hs & Hr & Hv) Hne Hh v'.
  unfold on_shoot. destruct (lookup sid (players s)); [|congruence].
  rewrite Hr. apply String.eqb_neq in Hne. rewrite Hne, Hv.
  destruct (applyDamage_cases vid v u1 u2 s) as [[_ ->]|[Hlt _]];
    [reflexivity | lia].
Qed.

(** C1.  Five shots at a victim of health 100: the [playerHit] events
    show 80, 60, 40, 20 and then 100, and the only [respawn] comes with
    the fifth, just before its [playerHit]; the victim is then stored
    with health 100 at the new spawn point.  And in no run of the server
    does an event or a stored player show a health that is not in
    1..100. *)
Theorem five_hits_one_respawn (sid : string) (d : ShootData) (vid : string)
  (v : Player) (s : State) (u1 w1 u2 w2 u3 w3 u4 w4 u5 w5 : R) :
  targets sid d vid v s -> vid <> EmptyString -> health v = 100%Z ->
  let shots := [Shoot sid d u1 w1; Shoot sid d u2 w2; Shoot sid d u3 w3;
                Shoot sid d u4 w4; Shoot sid d u5 w5] in
  snd (run shots s) =
    [playerHit vid 80; playerHit vid 60; playerHit vid 40; playerHit vid 20;
     respawn vid (spawn_coord u5) (Fin 1) (spawn_coord w5);
     playerHit vid 100] /\
  List.length (filter is_respawn (snd (run shots s))) = 1%nat /\
  lookup vid (players (fst (run shots s))) =
    Some (mkPlayer (spawn_coord u5) (Fin 1) (spawn_coord w5)
                   (rotationY v) 100) /\
  (forall cs,
     Forall alive (flat_map shown_healths (snd (run cs init))) /\
     forall k p, In (k, p) (players (fst (run cs init))) -> alive (health p)).
Proof.
  intros T0 Hne Hh shots.
  destruct (shot_survived sid d u1 w1 s vid v T0 Hne) as (s1 & E1 & T1);
    [lia|].
  destruct (shot_survived sid d u2 w2 s1 vid _ T1 Hne) as (s2 & E2 & T2);
    [simpl; lia|].
  destruct (shot_survived sid d u3 w3 s2 vid _ T2 Hne) as (s3 & E3 & T3);
    [simpl; lia|].
  destruct (shot_survived sid d u4 w4 s3 vid _ T3 Hne) as (s4 & E4 & T4);
    [simpl; lia|].
  pose proof (shot_lethal sid d u5 w5 s4 vid _ T4 Hne) as E5.
  cbn zeta in E5. specialize (E5 ltac:(simpl; lia)).
  assert (run shots s =
            (mkState (set vid (mkPlayer (spawn_coord u5) (Fin 1)
                                        (spawn_coord w5) (rotationY v) 100)
                          (players s4)) (builds s4) (nextBuildId s4),
             [playerHit vid 80; playerHit vid 60; playerHit vid 40;
              playerHit vid 20;
              respawn vid (spawn_coord u5) (Fin 1) (spawn_coord w5);
              playerHit vid 100])) as Hrun.
  { unfold shots. cbn [run handle].
    rewrite E1, E2, E3, E4, E5. cbn [hurt health app]. rewrite Hh.
    reflexivity. }
  rewrite Hrun. cbn [fst snd players].
  split; [reflexivity|]. split; [reflexivity|].
  split; [apply lookup_set_same|].
  intros cs. destruct (run_healths cs init) as [H1 H2].
  - intros k p [].
  - split; [exact H2 | exact H1].
Qed.

Lemma five_hits_one_respawn_witness :
  let d := mkShoot (mkVec3 (Fin 0) (Fin (1 + 0.5)) (Fin 0))
                   (mkVec3 (Fin 1) (Fin 0) (Fin 0)) in
  let pA := mkPlayer (Fin 0) (Fin 1) (Fin 0) (Fin 0) 100 in
  let pB := mkPlayer (Fin 5) (Fin 1) (Fin 0) (Fin 0) 100 in
  let pC := mkPlayer (Fin 5) (Fin 1) (Fin 0) (Fin 3) 60 in
  let s := mkState [("A"%string, pA); ("B"%string, pB); ("C"%string, pC)]
                   [] 1 in
  let shot := Shoot "A" d 0.25 0.75 in
  snd (run [shot; shot; shot; shot; shot] s) =
    [playerHit "B" 80; playerHit "B" 60; playerHit "B" 40; playerHit "B" 20;
     respawn "B" (spawn_coord 0.25) (Fin 1) (spawn_coord 0.75);
     playerHit "B" 100].
Proof.
  intros d pA pB pC s shot.
  apply (five_hits_one_respawn "A" d "B" pB s).
  - split; [discriminate|]. split; [apply tie_example | reflexivity].
  - discriminate.
  - reflexivity.
Defined.

(** ** A session from end to end *)

Lemma spawn_coord_half : spawn_coord 0.5 = Fin 0.
Proof. rewrite spawn_coord_fin. f_equal. lra. Qed.

Lemma spawn_coord_two_thirds : spawn_coord (2 / 3) = Fin 5.
Proof. rewrite spawn_coord_fin. f_equal. lra. Qed.

(** A connects and spawns at the origin, B connects and spawns five
    units along x.  A shoots along x at chest height and hits B, places
    a wall, and leaves: B is left alone with health 80, the wall is gone
    and the next build will be number 2. *)
Example end_to_end :
  let ray := mkShoot (mkVec3 (Fin 0) (Fin (1 + 0.5)) (Fin 0))
                     (mkVec3 (Fin 1) (Fin 0) (Fin 0)) in
  let wall := mkBuildData "wall" (Fin 5) (Fin 1) (Fin 5) None in
  let pA := mkPlayer (Fin 0) (Fin 1) (Fin 0) (Fin 0) 100 in
  let pB := mkPlayer (Fin 5) (Fin 1) (Fin 0) (Fin 0) 100 in
  let b1 := mkBuild 1 "A" "wall" (Fin 5) (Fin 1) (Fin 5) (Fin 0) in
  run [Connect "A" 0.5 0.5; Connect "B" (2 / 3) 0.5; Shoot "A" ray 0.5 0.5;
       PlaceBuild "A" wall; Disconnect "A"] init =
    (mkState [("B"%string, hurt pB)] [] 2,
     [initState "A" "A" [("A"%string, pA)] [];
      playerJoined "A" "A" pA;
      initState "B" "B" [("A"%string, pA); ("B"%string, pB)] [];
      playerJoined "B" "B" pB;
      playerHit "B" 80;
      buildPlaced b1;
      playerLeft "A"]).
Proof.
  intros ray wall pA pB b1.
  assert (resolveHit "A" ray [("A"%string, pA); ("B"%string, pB)]
          = Some "B"%string) as Hr.
  { assert (cand "A" ray ("B"%string, pB) = Some (Fin (5 - 0 - 0.5))) as HB.
    { apply cand_spec. split; [discriminate|]. split.
      - apply head_on_hit. lra.
      - symmetry. apply head_on. }
    clearbody ray pB.
    unfold resolveHit, resolve. cbn [fold_left].
    rewrite !scan_cand, HB. reflexivity. }
  assert (on_shoot "A" ray 0.5 0.5
            (mkState [("A"%string, pA); ("B"%string, pB)] [] 1)
          = (mkState [("A"%string, pA); ("B"%string, hurt pB)] [] 1,
             [playerHit "B" 80])) as Hs.
  { unfold on_shoot. cbn [players]. rewrite Hr. reflexivity. }
  clearbody ray.
  rewrite !run_cons. cbn [run handle fst snd].
  unfold on_connection. cbn [fst snd players builds nextBuildId init set].
  rewrite spawn_coord_half, spawn_coord_two_thirds.
  cbn [set String.eqb Ascii.eqb Bool.eqb].
  fold pA pB. rewrite Hs. cbn [fst snd].
  rewrite on_placeBuild_eq.
  cbn [dtype dx dy dz drotY wall players builds nextBuildId or_zero fst snd].
  rewrite !clamp_fin by lra.
  reflexivity.
Qed.

(** * Further properties of the server *)

(** ** Sessions without a player *)

(** X1.  A [move] or a [shoot] of a session that has no player is dropped,
    and so is any sequence of them: the state stays as it is and nothing
    is emitted. *)
Theorem stale_session_ignored (sid : string) (cs : list Command) (s : State) :
  lookup sid (players s) = None ->
  Forall (acts_of sid) cs ->
  run cs s = (s, []).
Proof.
  intros Hs Hcs. induction Hcs as [|c cs Hc _ IH]; [reflexivity|].
  rewrite run_cons.
  assert (handle c s = (s, [])) as ->.
  { destruct c; simpl in Hc; try contradiction; subst; simpl.
    - now apply on_move_stale.
    - now apply on_shoot_stale. }
  cbn [fst snd]. rewrite IH. reflexivity.
Qed.

Lemma stale_session_ignored_witness :
  let s := mkState [("B"%string, mkPlayer (Fin 0) (Fin 1) (Fin 0) (Fin 0) 100)]
                   [] 1 in
  let ray := mkShoot (mkVec3 (Fin (-3)) (Fin 1.5) (Fin 0))
                     (mkVec3 (Fin 1) (Fin 0) (Fin 0)) in
  run [Move "A" (mkMove (Fin 1) (Fin 1) (Fin 1) (Fin 0)); Shoot "A" ray 0.5 0.5]
      s = (s, []).
Proof.
  intros s ray. apply (stale_session_ignored "A").
  - reflexivity.
  - repeat constructor.
Defined.

(** ** More on the player map *)

Lemma set_keys (k : string) (p q : Player) (ps : Players) :
  lookup k ps = Some q -> map fst (set k p ps) = map fst ps.
Proof.
  induction ps as [|[k' p'] rest IH]; simpl; [discriminate|].
  destruct (String.eqb k' k) eqn:E; simpl; auto.
  intros H. now rewrite IH.
Qed.

Lemma set_fresh (k : string) (p : Player) (ps : Players) :
  lookup k ps = None -> set k p ps = ps ++ [(k, p)].
Proof.
  induction ps as [|[k' p'] rest IH]; simpl; auto.
  destruct (String.eqb k' k); [discriminate|].
  intros H. now rewrite IH.
Qed.

Lemma delete_fresh (k : string) (ps : Players) :
  lookup k ps = None -> delete k ps = ps.
Proof.
  induction ps as [|[k' p'] rest IH]; simpl; auto.
  destruct (String.eqb k' k); [discriminate|].
  intros H. now rewrite IH.
Qed.

Lemma delete_set_fresh (k : string) (p : Player) (ps : Players) :
  lookup k ps = None -> delete k (set k p ps) = ps.
Proof.
  induction ps as [|[k' p'] rest IH]; simpl.
  - now rewrite String.eqb_refl.
  - destruct (String.eqb k' k) eqn:E; [discriminate|].
    intros H. simpl. rewrite E. now rewrite IH.
Qed.

Lemma set_set (k : string) (p q : Player) (ps : Players) :
  set k p (set k q ps) = set k p ps.
Proof.
  induction ps as [|[k' p'] rest IH]; simpl.
  - now rewrite String.eqb_refl.
  - destruct (String.eqb k' k) eqn:E; simpl; rewrite E; auto.
    now rewrite IH.
Qed.

Lemma State_eta (s : State) :
  mkState (players s) (builds s) (nextBuildId s) = s.
Proof. now destruct s. Qed.

Lemma filter_all {A : Type} (f : A -> bool) (l : list A) :
  (forall a, In a l -> f a = true) -> filter f l = l.
Proof.
  induction l as [|a l IH]; simpl; auto.
  intros H. rewrite (H a) by auto. f_equal. apply IH. auto.
Qed.

(** ** Movement *)

(** X2.  [move] touches the record of the mover and nothing else: the keys of
    the map and their order, the records of the others, the builds and
    the counter stay, and nothing is emitted.  The mover keeps its
    health; its rotation is stored as sent, unclamped. *)
Theorem move_frame (sid : string) (data : MoveData) (s : State) :
  let s' := fst (on_move sid data s) in
  map fst (players s') = map fst (players s) /\
  (forall k, k <> sid -> lookup k (players s') = lookup k (players s)) /\
  builds s' = builds s /\
  nextBuildId s' = nextBuildId s /\
  snd (on_move sid data s) = [] /\
  (forall p, lookup sid (players s) = Some p ->
     exists p', lookup sid (players s') = Some p' /\
                health p' = health p /\ rotationY p' = mrotationY data).
Proof.
  cbn zeta.
  destruct (on_move_cases sid data s) as [[Hn ->]|(p & Hp & ->)];
    cbn [fst snd players builds nextBuildId].
  - repeat split; auto. intros p Hp. congruence.
  - split; [eapply set_keys; eauto|].
    split; [intros k Hk; now apply lookup_set_other|].
    repeat split; auto.
    intros p0 Hp0. rewrite Hp in Hp0. inversion Hp0; subst p0.
    eexists. split; [apply lookup_set_same|]. auto.
Qed.

Lemma move_frame_witness :
  let s := mkState [("A"%string, mkPlayer (Fin 0) (Fin 1) (Fin 0) (Fin 0) 60);
                    ("B"%string, mkPlayer (Fin 3) (Fin 1) (Fin 4) (Fin 0) 80)]
                   [] 1 in
  let data := mkMove (Fin 70) (Fin 2) (Fin (-1)) (Fin 9) in
  lookup "B" (players (fst (on_move "A" data s))) = lookup "B" (players s).
Proof.
  intros s data. apply (move_frame "A" data s). discriminate.
Defined.

Lemma clamp_idem (v : num) : clamp (clamp v) = clamp v.
Proof.
  destruct v as [| | |r].
  - reflexivity.
  - apply clamp_id. apply clamp_in_arena. discriminate.
  - apply clamp_id. apply clamp_in_arena. discriminate.
  - apply clamp_id. apply clamp_in_arena. discriminate.
Qed.

Lemma clamp_mono (v w : num) :
  nle v w = true -> nle (clamp v) (clamp w) = true.
Proof.
  unfold clamp, ARENA_LIMIT, Math_max, Math_min.
  destruct v as [| | |p], w as [| | |q]; simpl; intros H; try discriminate;
    real_facts.
Qed.

(** X3.  [clamp] is idempotent and monotone.  So a [move] sent twice, or sent
    again with the coordinates the server has stored, leaves the state
    the first one produced. *)
Theorem move_replayed (sid : string) (data : MoveData) (s : State) :
  let s1 := fst (on_move sid data s) in
  let stored := mkMove (clamp (mx data)) (clamp (my data)) (clamp (mz data))
                       (mrotationY data) in
  fst (on_move sid data s1) = s1 /\
  fst (on_move sid stored s1) = s1 /\
  (forall v, clamp (clamp v) = clamp v) /\
  (forall v w, nle v w = true -> nle (clamp v) (clamp w) = true).
Proof.
  cbn zeta.
  assert (forall d', clamp (mx d') = clamp (mx data) ->
                     clamp (my d') = clamp (my data) ->
                     clamp (mz d') = clamp (mz data) ->
                     mrotationY d' = mrotationY data ->
                     fst (on_move sid d' (fst (on_move sid data s)))
                     = fst (on_move sid data s)) as Hre.
  { intros d' Hx Hy Hz Hr.
    destruct (on_move_cases sid data s) as [[Hn ->]|(p & Hp & ->)];
      cbn [fst].
    - now rewrite on_move_stale.
    - unfold on_move at 1. cbn [players builds nextBuildId].
      rewrite lookup_set_same. cbn [fst health].
      rewrite set_set, Hx, Hy, Hz, Hr. reflexivity. }
  split; [now apply Hre|]. split.
  - apply Hre; cbn [mx my mz mrotationY]; auto using clamp_idem.
  - split; [apply clamp_idem | apply clamp_mono].
Qed.

Lemma move_replayed_witness :
  nle (clamp (Fin (-80))) (clamp (Fin 3)) = true.
Proof.
  apply (move_replayed "A" (mkMove (Fin 1) (Fin 1) (Fin 1) (Fin 0)) init).
  simpl. apply negb_true_iff, Rltb_false. lra.
Defined.

(** ** Shots *)

(** X4.  A shot changes at most one record of the map, and never the
    shooter's: nobody can hit itself.  The keys and their order, the
    builds and the counter stay.  Either nothing happens and nothing is
    emitted, or there is a victim, and every event is about it. *)
Theorem shoot_frame (sid : string) (data : ShootData) (u1 u2 : R)
  (s : State) :
  let s' := fst (on_shoot sid data u1 u2 s) in
  let evs := snd (on_shoot sid data u1 u2 s) in
  map fst (players s') = map fst (players s) /\
  lookup sid (players s') = lookup sid (players s) /\
  builds s' = builds s /\
  nextBuildId s' = nextBuildId s /\
  ((s' = s /\ evs = []) \/
   exists vid,
     resolveHit sid data (players s) = Some vid /\ vid <> sid /\
     (forall k, k <> vid -> lookup k (players s') = lookup k (players s)) /\
     exists h, last evs (playerLeft vid) = playerHit vid h /\
               Forall (fun e => e = playerHit vid h \/ is_respawn e = true) evs).
Proof.
  cbn zeta.
  destruct (on_shoot_cases sid data u1 u2 s)
    as [->|(vid & v & Hr & Hv & ->)]; cbn [fst snd].
  - repeat split; auto.
  - destruct (resolveHit_some sid data _ _ Hr) as (_ & _ & _ & _ & Hne & _).
    assert (forall w,
              map fst (set vid w (players s)) = map fst (players s) /\
              lookup sid (set vid w (players s)) = lookup sid (players s))
      as Hset.
    { intros w. split; [eapply set_keys; eauto|].
      apply lookup_set_other. congruence. }
    destruct (applyDamage_cases vid v u1 u2 s) as [[_ ->]|[_ ->]];
      cbn [fst snd players builds nextBuildId];
      (split; [apply Hset|]); (split; [apply Hset|]);
      (split; [reflexivity|]); (split; [reflexivity|]);
      right; exists vid; (split; [exact Hr|]); (split; [exact Hne|]);
      (split; [intros k Hk; now apply lookup_set_other|]).
    + exists 100%Z. split; [reflexivity|].
      constructor; [now right|]. constructor; [now left | constructor].
    + exists (health v - 20)%Z. split; [reflexivity|].
      constructor; [now left | constructor].
Qed.

Lemma shoot_frame_witness :
  let d := mkShoot (mkVec3 (Fin 0) (Fin (1 + 0.5)) (Fin 0))
                   (mkVec3 (Fin 1) (Fin 0) (Fin 0)) in
  let pA := mkPlayer (Fin 0) (Fin 1) (Fin 0) (Fin 0) 100 in
  let pB := mkPlayer (Fin 5) (Fin 1) (Fin 0) (Fin 0) 100 in
  let pC := mkPlayer (Fin 5) (Fin 1) (Fin 0) (Fin 3) 60 in
  let s := mkState [("A"%string, pA); ("B"%string, pB); ("C"%string, pC)]
                   [] 1 in
  lookup "C" (players (fst (on_shoot "A" d 0.5 0.5 s))) = Some pC.
Proof.
  intros d pA pB pC s.
  destruct (shoot_frame "A" d 0.5 0.5 s)
    as (_ & _ & _ & _ & [[E _]|(vid & Hr & _ & Hk & _)]).
  - rewrite E. reflexivity.
  - assert (resolveHit "A" d (players s) = Some "B"%string) as T
      by apply tie_example.
    rewrite T in Hr. inversion Hr; subst vid.
    rewrite Hk by discriminate. reflexivity.
Defined.

(** ** Health levels *)

(** A property of the states kept by every handler, together with a
    property of the events every handler emits from such a state, holds
    along every run. *)
Lemma run_invariant_events (P : State -> Prop) (E : Event -> Prop) :
  (forall c s, P s -> P (fst (handle c s)) /\ Forall E (snd (handle c s))) ->
  forall cs s, P s -> P (fst (run cs s)) /\ Forall E (snd (run cs s)).
Proof.
  intros Hstep cs. induction cs as [|c cs IH]; intros s Hs.
  - simpl. auto.
  - rewrite run_cons. cbn [fst snd].
    destruct (Hstep c s Hs) as [H1 H2]. destruct (IH _ H1) as [H3 H4].
    split; auto. apply Forall_app. auto.
Qed.

Lemma levels_set (k : string) (p : Player) (s : State) :
  (forall k' p', In (k', p') (players s) -> In (health p') HEALTH_LEVELS) ->
  In (health p) HEALTH_LEVELS ->
  forall k' p', In (k', p') (set k p (players s)) ->
                In (health p') HEALTH_LEVELS.
Proof.
  intros Hs Hp k' p' Hin. destruct (In_set _ _ _ _ Hin) as [E|H].
  - inversion E; subst; auto.
  - eauto.
Qed.

Lemma level_hurt (h : Z) :
  In h HEALTH_LEVELS -> (0 < h - 20)%Z -> In (h - 20)%Z HEALTH_LEVELS.
Proof.
  unfold HEALTH_LEVELS. simpl.
  intros [<-|[<-|[<-|[<-|[<-|[]]]]]] H; try lia; auto 6.
Qed.

Lemma level_lethal (h : Z) :
  In h HEALTH_LEVELS -> ((h - 20 <= 0)%Z <-> h = 20%Z).
Proof.
  unfold HEALTH_LEVELS. simpl.
  intros [<-|[<-|[<-|[<-|[<-|[]]]]]]; lia.
Qed.

Lemma handle_levels (c : Command) (s : State) :
  (forall k p, In (k, p) (players s) -> In (health p) HEALTH_LEVELS) ->
  (forall k p, In (k, p) (players (fst (handle c s))) ->
               In (health p) HEALTH_LEVELS) /\
  Forall (fun e => forall v h, e = playerHit v h -> In h HEALTH_LEVELS)
         (snd (handle c s)).
Proof.
  intros Hs.
  assert (In 100%Z HEALTH_LEVELS) as H100 by (simpl; auto 6).
  destruct c; cbn [handle].
  - split.
    + apply levels_set; auto.
    + repeat constructor; discriminate.
  - destruct (on_move_cases sid data s) as [[_ ->]|(p & Hp & ->)];
      cbn [fst snd]; split; auto.
    apply levels_set; auto. apply lookup_In in Hp. exact (Hs _ _ Hp).
  - destruct (on_shoot_cases sid data u1 u2 s)
      as [->|(h & v & _ & Hv & ->)]; [cbn [fst snd]; auto|].
    apply lookup_In, Hs in Hv.
    destruct (applyDamage_cases h v u1 u2 s) as [[_ ->]|[Hh ->]];
      cbn [fst snd]; split; try (apply levels_set; auto).
    + constructor; [discriminate|].
      constructor; [|constructor]. intros v' h' E. inversion E; subst; auto.
    + now apply level_hurt.
    + constructor; [|constructor]. intros v' h' E. inversion E; subst.
      now apply level_hurt.
  - cbn [on_placeBuild fst snd players]. split; auto.
    repeat constructor; discriminate.
  - cbn [on_disconnect fst snd players]. split.
    + intros k p Hin. apply In_delete in Hin. eapply Hs, Hin.
    + repeat constructor; discriminate.
  - cbn [on_tick fst snd]. split; auto. repeat constructor; discriminate.
Qed.

(** X5.  The health of a player is always one of 100, 80, 60, 40, 20: in
    every state the server reaches, and in every [playerHit] it sends. *)
Theorem health_levels (cs : list Command) :
  (forall k p, In (k, p) (players (fst (run cs init))) ->
               In (health p) HEALTH_LEVELS) /\
  (forall v h, In (playerHit v h) (snd (run cs init)) ->
               In h HEALTH_LEVELS).
Proof.
  destruct (run_invariant_events
              (fun s => forall k p, In (k, p) (players s) ->
                                    In (health p) HEALTH_LEVELS)
              (fun e => forall v h, e = playerHit v h -> In h HEALTH_LEVELS)
              handle_levels cs init) as [H1 H2].
  - intros k p [].
  - split; [exact H1|]. intros v h Hin.
    rewrite Forall_forall in H2. eapply H2; eauto.
Qed.

Lemma health_levels_witness :
  let cs := [Connect "A" 0.5 0.5; Tick] in
  let spawn := mkPlayer (spawn_coord 0.5) (Fin 1) (spawn_coord 0.5) (Fin 0)
                        100 in
  In ("A"%string, spawn) (players (fst (run cs init))) /\
  In (health spawn) HEALTH_LEVELS.
Proof.
  intros cs spawn.
  assert (In ("A"%string, spawn) (players (fst (run cs init)))) as H
    by (left; reflexivity).
  split; [exact H|].
  exact (proj1 (health_levels cs) "A"%string spawn H).
Defined.

Lemma resolveHit_two (sid k : string) (pA pB : Player) (d : ShootData) :
  k <> sid -> is_hit d pB ->
  resolveHit sid d [(sid, pA); (k, pB)] = Some k.
Proof.
  intros Hk Hh.
  destruct (resolveHit sid d [(sid, pA); (k, pB)]) as [v|] eqn:E.
  - destruct (resolveHit_some sid d _ _ E) as (l1 & pl & l2 & Hps & Hv & _).
    assert (In (v, pl) [(sid, pA); (k, pB)]) as Hin
      by (rewrite Hps; apply in_elt).
    destruct Hin as [H|[H|[]]]; inversion H; subst; auto. contradiction.
  - exfalso. rewrite resolveHit_none in E.
    apply (E k pB); auto. right. left. reflexivity.
Qed.

(** X6.  In a state the server has reached, a shot that finds a victim sends
    it a [respawn] exactly when the victim was down to 20. *)
Theorem respawn_when_at_20 (cs : list Command) (sid : string)
  (d : ShootData) (vid : string) (v : Player) (u1 u2 : R) :
  let s := fst (run cs init) in
  targets sid d vid v s -> vid <> EmptyString ->
  (existsb is_respawn (snd (on_shoot sid d u1 u2 s)) = true <->
   health v = 20%Z).
Proof.
  intros s T Hne.
  assert (In (health v) HEALTH_LEVELS) as Hl.
  { destruct T as (_ & _ & Hv). apply lookup_In in Hv.
    destruct (run_invariant_events
                (fun s => forall k p, In (k, p) (players s) ->
                                      In (health p) HEALTH_LEVELS)
                (fun e => forall w h, e = playerHit w h ->
                                      In h HEALTH_LEVELS)
                handle_levels cs init) as [H1 _]; [intros k p []|].
    exact (H1 _ _ Hv). }
  destruct (Z_le_gt_dec (health v - 20) 0) as [Hle|Hgt].
  - rewrite (shot_lethal sid d u1 u2 s vid v T Hne Hle). cbn [snd existsb].
    simpl. split; auto. intros _. now apply level_lethal.
  - destruct (shot_survived sid d u1 u2 s vid v T Hne) as (s' & -> & _);
      [lia|].
    cbn [snd existsb]. simpl. split; [discriminate|].
    intros E. lia.
Qed.

Lemma respawn_when_at_20_witness :
  let d := mkShoot (mkVec3 (Fin (-5)) (Fin (1 + 0.5)) (Fin 0))
                   (mkVec3 (Fin 1) (Fin 0) (Fin 0)) in
  let cs := [Connect "A" 0 0.5; Connect "B" 0.5 0.5] in
  existsb is_respawn (snd (on_shoot "A" d 0.5 0.5 (fst (run cs init))))
  = false.
Proof.
  intros d cs.
  assert (targets "A" d "B"
            (mkPlayer (Fin ((0.5 - 0.5) * 30)) (Fin 1) (Fin ((0.5 - 0.5) * 30))
                      (Fin 0) 100)
            (fst (run cs init))) as T.
  { split; [discriminate|]. split; [|reflexivity].
    apply (resolveHit_two "A" "B"
             (mkPlayer (spawn_coord 0) (Fin 1) (spawn_coord 0.5) (Fin 0) 100)
             (mkPlayer (spawn_coord 0.5) (Fin 1) (spawn_coord 0.5) (Fin 0)
                       100)).
    - discriminate.
    - rewrite spawn_coord_half. apply head_on_hit. lra. }
  pose proof (respawn_when_at_20 cs "A" d "B" _ 0.5 0.5 T) as H.
  destruct (existsb is_respawn _); auto.
  assert (100 = 20)%Z; [|discriminate]. apply H; [discriminate | reflexivity].
Defined.

(** ** Joining and leaving *)

(** X7.  A newcomer is put last in the map, so it comes last in every scan,
    and everybody else keeps its record.  If it leaves without having
    built anything, the world is back to what it was before it came. *)
Theorem join_then_leave (sid : string) (u1 u2 : R) (s : State) :
  lookup sid (players s) = None ->
  let spawn := mkPlayer (spawn_coord u1) (Fin 1) (spawn_coord u2) (Fin 0) 100 in
  let s1 := fst (on_connection sid u1 u2 s) in
  players s1 = players s ++ [(sid, spawn)] /\
  (forall k, k <> sid -> lookup k (players s1) = lookup k (players s)) /\
  snd (on_connection sid u1 u2 s) =
    [initState sid sid (players s ++ [(sid, spawn)]) (builds s);
     playerJoined sid sid spawn] /\
  ((forall b, In b (builds s) -> ownerId b <> sid) ->
   fst (on_disconnect sid s1) = s).
Proof.
  intros Hfresh spawn s1. subst s1. unfold on_connection.
  cbn [fst snd players]. fold spawn.
  rewrite (set_fresh sid spawn _ Hfresh).
  split; [reflexivity|]. split.
  - intros k Hk. rewrite <- (set_fresh sid spawn _ Hfresh).
    now apply lookup_set_other.
  - split; [reflexivity|]. intros Hown.
    unfold on_disconnect. cbn [fst players builds nextBuildId].
    rewrite <- (set_fresh sid spawn _ Hfresh), delete_set_fresh by auto.
    rewrite filter_all; [apply State_eta|].
    intros b Hb. apply negb_true_iff, String.eqb_neq. auto.
Qed.

Lemma join_then_leave_witness :
  let s := mkState [("A"%string, mkPlayer (Fin 0) (Fin 1) (Fin 0) (Fin 0) 60)]
                   [mkBuild 1 "A" "wall" (Fin 5) (Fin 1) (Fin 5) (Fin 0)] 2 in
  fst (on_disconnect "B" (fst (on_connection "B" 0.5 0.5 s))) = s.
Proof.
  intros s.
  apply (join_then_leave "B" 0.5 0.5 s); [reflexivity|].
  intros b [<-|[]]. discriminate.
Defined.

(** ** Builds and their owners *)

Lemma lookup_set_live (k k' : string) (p : Player) (ps : Players) :
  lookup k' ps <> None -> lookup k' (set k p ps) <> None.
Proof.
  intros H. destruct (String.eqb k' k) eqn:E.
  - apply String.eqb_eq in E. subst. rewrite lookup_set_same. discriminate.
  - apply String.eqb_neq in E. now rewrite lookup_set_other.
Qed.

Lemma handle_owners_live (c : Command) (s : State) :
  match c with
  | PlaceBuild sid _ => lookup sid (players s) <> None
  | _ => True
  end ->
  owners_live s -> owners_live (fst (handle c s)).
Proof.
  intros Hc Hs. destruct c; cbn [handle].
  - intros b Hb. apply lookup_set_live. now apply Hs.
  - destruct (on_move_cases sid data s) as [[_ ->]|(p & Hp & ->)]; auto.
    intros b Hb. apply lookup_set_live. now apply Hs.
  - destruct (on_shoot_cases sid data u1 u2 s)
      as [->|(h & v & _ & Hv & ->)]; auto.
    destruct (applyDamage_cases h v u1 u2 s) as [[_ ->]|[_ ->]];
      intros b Hb; apply lookup_set_live; now apply Hs.
  - intros b Hb. cbn [on_placeBuild fst builds players] in *.
    apply in_app_or in Hb. destruct Hb as [Hb|[<-|[]]]; auto.
  - intros b Hb. cbn [on_disconnect fst builds players] in *.
    apply filter_In in Hb. destruct Hb as [Hb Hne].
    apply negb_true_iff, String.eqb_neq in Hne.
    rewrite lookup_delete_other by auto. now apply Hs.
  - exact Hs.
Qed.

(** X8.  As long as [placeBuild] only comes from sessions that have a player,
    no build outlives its owner: in every state of the run, the owner of
    every stored build has a player. *)
Theorem no_orphan_builds (cs : list Command) (s : State) :
  owners_live s -> placements_live cs s -> owners_live (fst (run cs s)).
Proof.
  revert s. induction cs as [|c cs IH]; intros s Hs Hcs; [exact Hs|].
  destruct Hcs as [Hc Hrest]. rewrite run_cons. cbn [fst].
  apply IH; auto. now apply handle_owners_live.
Qed.

Lemma no_orphan_builds_witness :
  let wall := mkBuildData "wall" (Fin 5) (Fin 1) (Fin 5) None in
  let cs := [Connect "A" 0.5 0.5; PlaceBuild "A" wall; Connect "B" 0.5 0.5;
             PlaceBuild "B" wall; Disconnect "A"] in
  owners_live (fst (run cs init)).
Proof.
  intros wall cs. apply no_orphan_builds.
  - intros b [].
  - cbn. repeat split; discriminate.
Defined.

Lemma or_zero_number (v : option num) : or_zero v <> NaN.
Proof.
  destruct v as [[| | |r]|]; simpl; try discriminate.
  destruct (Reqb r 0); simpl; discriminate.
Qed.

(** X9.  The rotation stored with a build is never [NaN]: a [rotY] that is
    missing, zero or [NaN] is stored as 0.  And when the coordinates of
    the [placeBuild] messages are numbers, every stored build is inside
    the arena. *)
Theorem stored_builds_sound (cs : list Command) :
  (forall b, In b (builds (fst (run cs init))) -> rotY b <> NaN) /\
  (Forall place_ok cs ->
   forall b, In b (builds (fst (run cs init))) ->
             in_arena (bx b) /\ in_arena (by_ b) /\ in_arena (bz b)).
Proof.
  split.
  - apply (run_invariant (fun s => forall b, In b (builds s) -> rotY b <> NaN)
                         (fun _ => True)).
    + intros c s _ Hs b Hb.
      destruct (handle_build_origin c s b Hb) as [H|(data & -> & _ & H)];
        auto.
      cbn [handle on_placeBuild snd] in H. destruct H as [H|[]].
      inversion H. apply or_zero_number.
    + apply Forall_forall. auto.
    + intros b [].
  - intros Hcs.
    apply (run_invariant
             (fun s => forall b, In b (builds s) ->
                in_arena (bx b) /\ in_arena (by_ b) /\ in_arena (bz b))
             place_ok); auto.
    + intros c s Hc Hs b Hb.
      destruct (handle_build_origin c s b Hb) as [H|(data & -> & _ & H)];
        auto.
      cbn [handle on_placeBuild snd] in H. destruct H as [H|[]].
      inversion H. cbn [place_ok] in Hc. destruct Hc as (Hx & Hy & Hz).
      cbn [bx by_ bz]. auto using clamp_in_arena.
    + intros b [].
Qed.

Lemma stored_builds_sound_witness :
  let far := mkBuildData "wall" (Fin 1000) NInf (Fin 5) (Some NaN) in
  let cs := [PlaceBuild "A" far] in
  in_arena (clamp (Fin 1000)) /\ in_arena (clamp NInf) /\
  in_arena (clamp (Fin 5)).
Proof.
  intros far cs.
  apply (proj2 (stored_builds_sound cs)
               ltac:(repeat constructor; discriminate)
               (mkBuild 1 "A" "wall" (clamp (Fin 1000)) (clamp NInf)
                        (clamp (Fin 5)) (Fin 0))).
  left. reflexivity.
Defined.

(** ** Numbering *)

Lemma seq_ids_snoc (n : nat) :
  map Z.of_nat (seq 1 (S n)) = map Z.of_nat (seq 1 n) ++ [Z.of_nat (S n)].
Proof. rewrite seq_S, map_app. reflexivity. Qed.

Lemma run_numbering (cs : list Command) (s : State) :
  let n := List.length (filter is_placement cs) in
  nextBuildId (fst (run cs s)) = (nextBuildId s + Z.of_nat n)%Z /\
  placed_ids (snd (run cs s)) =
    map (fun i => (nextBuildId s + Z.of_nat i)%Z) (seq 0 n).
Proof.
  revert s. induction cs as [|c cs IH]; intros s.
  - simpl. split; [lia | reflexivity].
  - rewrite run_cons. cbn [fst snd]. rewrite placed_ids_app.
    destruct (IH (fst (handle c s))) as [H1 H2]. cbn zeta in *.
    pose proof (handle_next c s) as Hn.
    destruct c; cbn [filter is_placement];
      try (destruct Hn as [-> E]; rewrite E in *; split; assumption).
    destruct Hn as [-> E]. rewrite E in *. cbn [List.length seq map app].
    split; [lia|]. f_equal; [f_equal; lia|].
    rewrite H2, <- seq_shift, map_map. apply map_ext. intros i. lia.
Qed.

Lemma handle_builds_length (c : Command) (s : State) :
  (List.length (builds (fst (handle c s))) <=
   List.length (builds s) + if is_placement c then 1 else 0)%nat.
Proof.
  pose proof (handle_builds c s) as HB.
  destruct c; cbn [is_placement]; try (rewrite HB; lia).
  - cbn [handle on_placeBuild fst builds]. rewrite length_app. simpl. lia.
  - cbn [handle on_disconnect fst builds].
    pose proof (filter_length_le
                  (fun b => negb (String.eqb (ownerId b) sid)) (builds s)).
    lia.
Qed.

Lemma run_builds_length (cs : list Command) (s : State) :
  (List.length (builds (fst (run cs s))) <=
   List.length (builds s) + List.length (filter is_placement cs))%nat.
Proof.
  revert s. induction cs as [|c cs IH]; intros s; [simpl; lia|].
  rewrite run_cons. cbn [fst]. specialize (IH (fst (handle c s))).
  pose proof (handle_builds_length c s) as H.
  cbn [filter]. destruct (is_placement c); cbn [List.length]; lia.
Qed.

(** X10.  Builds are numbered 1, 2, 3, ... in the order of the placements,
    without gaps: after [n] placements the ids handed out are exactly
    [1..n] and the next id is [n + 1], whatever else happened. *)
Theorem ids_are_consecutive (cs : list Command) :
  let n := List.length (filter is_placement cs) in
  placed_ids (snd (run cs init)) = map Z.of_nat (seq 1 n) /\
  nextBuildId (fst (run cs init)) = Z.of_nat (n + 1) /\
  (List.length (builds (fst (run cs init))) <= n)%nat.
Proof.
  intros n. destruct (run_numbering cs init) as [H1 H2]. fold n in H1, H2.
  cbn [init nextBuildId] in H1, H2. split; [|split].
  - rewrite H2, <- seq_shift, map_map. apply map_ext. intros i. lia.
  - rewrite H1. lia.
  - pose proof (run_builds_length cs init) as H. simpl in H. exact H.
Qed.

Lemma ids_are_consecutive_witness :
  let wall := mkBuildData "wall" (Fin 5) (Fin 1) (Fin 5) None in
  let cs := [Connect "A" 0.5 0.5; PlaceBuild "A" wall; Disconnect "A";
             Connect "B" 0.5 0.5; PlaceBuild "B" wall; PlaceBuild "B" wall] in
  placed_ids (snd (run cs init)) = [1; 2; 3]%Z.
Proof.
  intros wall cs. exact (proj1 (ids_are_consecutive cs)).
Defined.

(** ** The broadcast *)

Lemma handle_no_worldState (c : Command) (s : State) :
  is_tick c = false ->
  filter (fun e => negb (is_worldState e)) (snd (handle c s))
  = snd (handle c s).
Proof.
  intros Hc. destruct c; try discriminate; cbn [handle].
  - reflexivity.
  - destruct (on_move_cases sid data s) as [[_ ->]|(p & _ & ->)]; reflexivity.
  - destruct (on_shoot_cases sid data u1 u2 s)
      as [->|(h & v & _ & _ & ->)]; [reflexivity|].
    destruct (applyDamage_cases h v u1 u2 s) as [[_ ->]|[_ ->]]; reflexivity.
  - reflexivity.
  - reflexivity.
Qed.

(** X11.  The broadcast only reads.  With the ticks of a run left out, the
    server ends in the same state and emits the same events but for the
    [worldState] ones; and every [worldState] shows the players and the
    builds of one and the same state, the one reached by the handlers
    that ran before the tick. *)
Theorem broadcast_is_snapshot (cs : list Command) (s : State) :
  let quiet := filter (fun c => negb (is_tick c)) cs in
  fst (run cs s) = fst (run quiet s) /\
  filter (fun e => negb (is_worldState e)) (snd (run cs s))
  = snd (run quiet s) /\
  (forall ps bs, In (worldState ps bs) (snd (run cs s)) ->
     exists cs1 cs2, cs = cs1 ++ Tick :: cs2 /\
                     ps = players (fst (run cs1 s)) /\
                     bs = builds (fst (run cs1 s))).
Proof.
  cbn zeta. revert s. induction cs as [|c cs IH]; intros s.
  - simpl. repeat split; auto. intros ps bs [].
  - destruct (IH (fst (handle c s))) as (H1 & H2 & H3).
    rewrite run_cons. cbn [fst snd filter].
    destruct (is_tick c) eqn:Ec; cbn [negb].
    + destruct c; try discriminate. cbn [handle on_tick fst snd] in *.
      split; [exact H1|]. split; [exact H2|].
      intros ps bs [E|Hin].
      * inversion E; subst. exists [], cs. auto.
      * destruct (H3 _ _ Hin) as (cs1 & cs2 & -> & -> & ->).
        exists (Tick :: cs1), cs2. rewrite run_cons. auto.
    + rewrite run_cons. cbn [fst snd]. split; [exact H1|].
      rewrite filter_app, H2, handle_no_worldState by exact Ec.
      split; [reflexivity|].
      intros ps bs Hin. apply in_app_or in Hin. destruct Hin as [Hin|Hin].
      * exfalso. rewrite <- (handle_no_worldState c s Ec) in Hin.
        apply filter_In in Hin. destruct Hin as [_ Hin]. discriminate.
      * destruct (H3 _ _ Hin) as (cs1 & cs2 & -> & -> & ->).
        exists (c :: cs1), cs2. rewrite run_cons. auto.
Qed.

Lemma broadcast_is_snapshot_witness :
  let cs := [Connect "A" 0.5 0.5; Tick; Disconnect "A"; Tick] in
  exists cs1 cs2, cs = cs1 ++ Tick :: cs2 /\
                  @nil (string * Player) = players (fst (run cs1 init)) /\
                  @nil Build = builds (fst (run cs1 init)).
Proof.
  intros cs.
  apply (proj2 (proj2 (broadcast_is_snapshot cs init))).
  right. right. right. right. left. reflexivity.
Defined.

(** ** More on the hit test *)



(** * Properties of the browser client *)

Section ClientProperties.

Variable normalize : Vec3 -> Vec3.
Variable lerp : Vec3 -> Vec3 -> num -> Vec3.
Variable lerpAngle : num -> num -> num -> num.

Local Abbreviation on_event := (Client.on_event lerp lerpAngle).
Local Abbreviation on_worldState := (Client.on_worldState lerp lerpAngle).
Local Abbreviation animate := (Client.animate normalize).
Local Abbreviation step := (Client.step normalize lerp lerpAngle).
Local Abbreviation play := (Client.play normalize lerp lerpAngle).

(** ** Runs of the client *)

Lemma play_cons (st : Client.Step) (sts : list Client.Step)
  (c : Client.State) :
  play (st :: sts) c =
    (fst (play sts (fst (step st c))),
     snd (step st c) ++ snd (play sts (fst (step st c)))).
Proof.
  simpl. destruct (step st c) as [c1 o1]. simpl.
  destruct (play sts c1); reflexivity.
Qed.

Lemma play_invariant (P : Client.State -> Prop) (Q : Client.Step -> Prop)
  (O : Client.Msg -> Prop) :
  (forall st c, Q st -> P c ->
                P (fst (step st c)) /\ Forall O (snd (step st c))) ->
  forall sts c, Forall Q sts -> P c ->
                P (fst (play sts c)) /\ Forall O (snd (play sts c)).
Proof.
  intros Hstep sts. induction sts as [|st sts IH]; intros c HQ HP.
  - simpl. auto.
  - inversion HQ as [|? ? Hq Hqs]; subst. rewrite play_cons. cbn [fst snd].
    destruct (Hstep st c) as [Ha Hb]; auto.
    destruct (IH (fst (step st c))) as [Hc Hd]; auto.
    split; auto. apply Forall_app. auto.
Qed.

Lemma fold_left_keeps {A S T : Type} (f : S -> A -> S) (g : S -> T)
  (l : list A) (s : S) :
  (forall a s', g (f s' a) = g s') -> g (fold_left f l s) = g s.
Proof.
  intros H. revert s. induction l as [|a l IH]; intros s; simpl; auto.
  rewrite IH. apply H.
Qed.

(** ** What the listeners leave alone *)

Lemma addBuild_controls (b : Build) (c : Client.State) :
  Client.controls (Client.addBuild b c) = Client.controls c.
Proof.
  unfold Client.addBuild. now destruct (Client.get Z.eqb (id b) _).
Qed.

Lemma addBuild_hud (b : Build) (c : Client.State) :
  Client.hud (Client.addBuild b c) = Client.hud c.
Proof.
  unfold Client.addBuild. now destruct (Client.get Z.eqb (id b) _).
Qed.

Lemma on_event_controls (e : Event) (c : Client.State) :
  Client.controls (on_event e c) = Client.controls c.
Proof.
  destruct e; cbn [Client.on_event].
  - unfold Client.on_initState.
    rewrite (fold_left_keeps _ Client.controls) by apply addBuild_controls.
    rewrite (fold_left_keeps _ Client.controls); [reflexivity|].
    intros [k p] c'. cbn [fst snd]. now destruct (Client.is_me k c').
  - unfold Client.on_playerJoined. now destruct (Client.is_me pid c).
  - unfold Client.on_respawn. now destruct (Client.myMesh c).
  - unfold Client.on_playerHit. now destruct (Client.is_me victimId c).
  - apply addBuild_controls.
  - unfold Client.on_playerLeft.
    now destruct (Client.get String.eqb pid (Client.otherPlayers c)).
  - unfold Client.on_worldState.
    rewrite (fold_left_keeps _ Client.controls) by apply addBuild_controls.
    rewrite (fold_left_keeps _ Client.controls); [reflexivity|].
    intros [k p] c'. destruct (Client.is_me k c'); auto.
    now destruct (Client.get String.eqb k (Client.otherPlayers c')).
Qed.

Lemma animate_controls (dt : num) (c : Client.State) :
  Client.controls (fst (animate dt c)) = Client.controls c.
Proof.
  unfold Client.animate. destruct (Client.myMesh c); auto.
  repeat match goal with
         | |- context [let '(_, _) := ?e in _] => destruct e
         end.
  reflexivity.
Qed.

(** ** The build keys *)

Lemma build_keys_unmapped (code : string) :
  Client.one_of code ["KeyQ"; "KeyC"; "KeyV"; "ShiftLeft"; "ShiftRight"]%string
  = true ->
  Client.prop code Client.BUILD_TYPES = None.
Proof.
  unfold Client.one_of. cbn [existsb]. rewrite !orb_true_iff.
  intros [H|[H|[H|[H|[H|H]]]]]; try discriminate;
    apply String.eqb_eq in H; subst; reflexivity.
Qed.

Lemma on_keydown_selected (code : string) (c : Client.State) :
  Client.selectedBuild (Client.on_keydown code c) = Client.selectedBuild c /\
  Client.buildSelected (Client.on_keydown code c) = Client.buildSelected c.
Proof.
  unfold Client.on_keydown.
  repeat match goal with
         | |- context [if Client.one_of code ?l then _ else _] =>
             let E := fresh "E" in
             destruct (Client.one_of code l) eqn:E; [auto|]
         end; auto.
  rewrite build_keys_unmapped by assumption. auto.
Qed.

Lemma on_input_selected (i : Client.Input) (c : Client.State) :
  Client.selectedBuild (Client.on_input i c) = Client.selectedBuild c.
Proof.
  destruct i; cbn [Client.on_input].
  - apply on_keydown_selected.
  - unfold Client.on_keyup.
    repeat match goal with
           | |- context [if ?g then _ else _] => destruct g; [reflexivity|]
           end; reflexivity.
  - unfold Client.on_mousemove. now destruct (negb locked).
Qed.

(** X14.  The keys that should select a build never do: [keydown] looks
    [e.code] ("KeyQ", "ShiftLeft", ...) up in a table whose keys are "Q",
    "C", "V" and "Shift".  Whatever the user does and whatever the
    server sends, nothing is ever selected, the HUD keeps saying "None",
    and the client never sends a [placeBuild]; a right click sends
    nothing at all. *)
Theorem client_never_builds (sts : list Client.Step) :
  Client.selectedBuild (fst (play sts Client.start)) = None /\
  Client.buildSelected (fst (play sts Client.start)) = "None"%string /\
  (forall data, ~ In (Client.placeBuild data) (snd (play sts Client.start))) /\
  (forall camPos camDir hits,
     Client.on_mousedown 2 camPos camDir hits (fst (play sts Client.start))
     = []).
Proof.
  destruct (play_invariant
              (fun c => Client.selectedBuild c = None /\
                        Client.buildSelected c = "None"%string)
              (fun _ => True)
              (fun m => forall data, m <> Client.placeBuild data))
    with (sts := sts) (c := Client.start) as [[H1 H2] H3].
  - intros st c _ [Hs Ht]. destruct st; cbn [Client.step fst snd].
    + split; [|constructor]. destruct i; cbn [Client.on_input].
      * destruct (on_keydown_selected code c) as [-> ->]. auto.
      * pose proof (on_input_selected (Client.KeyUp code) c) as E.
        cbn [Client.on_input] in E. rewrite E. split; auto.
        unfold Client.on_keyup.
        repeat match goal with
               | |- context [if ?g then _ else _] => destruct g; [exact Ht|]
               end; exact Ht.
      * unfold Client.on_mousemove. destruct (negb locked); auto.
    + split; [|constructor].
      pose proof (on_event_controls e c) as E. unfold Client.controls in E.
      inversion E. split; congruence.
    + pose proof (animate_controls dt c) as E. unfold Client.controls in E.
      inversion E. split; [split; congruence|].
      unfold Client.animate. destruct (Client.myMesh c); [|constructor].
      repeat match goal with
             | |- context [let '(_, _) := ?e in _] => destruct e
             end.
      cbn [snd]. constructor; [discriminate | constructor].
    + split; [auto|]. unfold Client.on_mousedown.
      destruct (button =? 0)%Z; [constructor; [discriminate|constructor]|].
      destruct (button =? 2)%Z; [|constructor].
      rewrite Hs. constructor.
  - apply Forall_forall. auto.
  - split; reflexivity.
  - split; [exact H1|]. split; [exact H2|]. split.
    + intros data Hin. rewrite Forall_forall in H3.
      exact (H3 _ Hin data eq_refl).
    + intros camPos camDir hits. unfold Client.on_mousedown.
      cbn [Z.eqb]. now rewrite H1.
Qed.

(** ** The maps of the client *)

Section Maps.

Context {K V : Type}.
Variable eqb : K -> K -> bool.
Hypothesis eqb_spec : forall a b, eqb a b = true <-> a = b.

Lemma get_put_same (k : K) (v : V) (o : list (K * V)) :
  Client.get eqb k (Client.put eqb k v o) = Some v.
Proof.
  assert (eqb k k = true) as Hkk by now apply eqb_spec.
  induction o as [|[k' v'] rest IH]; simpl.
  - now rewrite Hkk.
  - destruct (eqb k' k) eqn:E; simpl; rewrite E; auto.
Qed.

Lemma get_put_other (k k' : K) (v : V) (o : list (K * V)) :
  k' <> k -> Client.get eqb k' (Client.put eqb k v o) = Client.get eqb k' o.
Proof.
  intros Hne.
  assert (eqb k k' = false) as Hkk.
  { destruct (eqb k k') eqn:E; auto. apply eqb_spec in E. congruence. }
  induction o as [|[k0 v0] rest IH]; simpl.
  - now rewrite Hkk.
  - destruct (eqb k0 k) eqn:E; simpl.
    + apply eqb_spec in E. subst k0. now rewrite Hkk.
    + now rewrite IH.
Qed.

Lemma get_del_same (k : K) (o : list (K * V)) :
  Client.get eqb k (Client.del eqb k o) = None.
Proof.
  induction o as [|[k' v'] rest IH]; simpl; auto.
  destruct (eqb k' k) eqn:E; simpl; auto. now rewrite E.
Qed.

End Maps.

Lemma Z_eqb_spec (a b : Z) : Z.eqb a b = true <-> a = b.
Proof. apply Z.eqb_eq. Qed.

(** ** Build meshes *)

Lemma addBuild_keeps (b : Build) (c : Client.State) (k : Z) (m : Client.Mesh) :
  Client.get Z.eqb k (Client.builds c) = Some m ->
  Client.get Z.eqb k (Client.builds (Client.addBuild b c)) = Some m.
Proof.
  intros H. unfold Client.addBuild.
  destruct (Client.get Z.eqb (id b) (Client.builds c)) eqn:E; auto.
  cbn [Client.with_builds Client.builds].
  rewrite (get_put_other Z.eqb Z_eqb_spec); auto. congruence.
Qed.

Lemma addBuild_known (b : Build) (c : Client.State) :
  Client.get Z.eqb (id b) (Client.builds (Client.addBuild b c)) <> None.
Proof.
  unfold Client.addBuild.
  destruct (Client.get Z.eqb (id b) (Client.builds c)) eqn:E.
  - congruence.
  - cbn [Client.with_builds Client.builds].
    rewrite (get_put_same Z.eqb Z_eqb_spec). discriminate.
Qed.

Lemma fold_addBuild_keeps (bs : list Build) (c : Client.State) (k : Z)
  (m : Client.Mesh) :
  Client.get Z.eqb k (Client.builds c) = Some m ->
  Client.get Z.eqb k
    (Client.builds (fold_left (fun acc b => Client.addBuild b acc) bs c))
  = Some m.
Proof.
  revert c. induction bs as [|b bs IH]; intros c H; simpl; auto.
  apply IH. now apply addBuild_keeps.
Qed.

Lemma on_event_builds (e : Event) (c : Client.State) (k : Z)
  (m : Client.Mesh) :
  Client.get Z.eqb k (Client.builds c) = Some m ->
  Client.get Z.eqb k (Client.builds (on_event e c)) = Some m.
Proof.
  intros H. destruct e; cbn [Client.on_event].
  - unfold Client.on_initState. apply fold_addBuild_keeps.
    rewrite (fold_left_keeps _ Client.builds); [exact H|].
    intros [k' p] c'. cbn [fst snd]. now destruct (Client.is_me k' c').
  - unfold Client.on_playerJoined. now destruct (Client.is_me pid c).
  - unfold Client.on_respawn. now destruct (Client.myMesh c).
  - unfold Client.on_playerHit. now destruct (Client.is_me victimId c).
  - now apply addBuild_keeps.
  - unfold Client.on_playerLeft.
    now destruct (Client.get String.eqb pid (Client.otherPlayers c)).
  - unfold Client.on_worldState. apply fold_addBuild_keeps.
    rewrite (fold_left_keeps _ Client.builds); [exact H|].
    intros [k' p] c'. destruct (Client.is_me k' c'); auto.
    now destruct (Client.get String.eqb k' (Client.otherPlayers c')).
Qed.

Lemma on_input_builds (i : Client.Input) (c : Client.State) :
  Client.builds (Client.on_input i c) = Client.builds c.
Proof.
  destruct i; cbn [Client.on_input].
  - unfold Client.on_keydown.
    repeat match goal with
           | |- context [if ?g then _ else _] =>
               destruct g;
               [first [reflexivity | now destruct (Client.truthy_string _)]|]
           end; reflexivity.
  - unfold Client.on_keyup.
    repeat match goal with
           | |- context [if ?g then _ else _] => destruct g; [reflexivity|]
           end; reflexivity.
  - unfold Client.on_mousemove. now destruct (negb locked).
Qed.

Lemma animate_builds (dt : num) (c : Client.State) :
  Client.builds (fst (animate dt c)) = Client.builds c.
Proof.
  unfold Client.animate. destruct (Client.myMesh c); auto.
  repeat match goal with
         | |- context [let '(_, _) := ?e in _] => destruct e
         end.
  reflexivity.
Qed.

(** X15.  The client never removes or changes the mesh of a build: once a
    build id is known, it keeps its mesh whatever happens next, the
    owner leaving and the server dropping the build included.  A build
    announced again, by [buildPlaced], [initState] or [worldState], is
    not built twice. *)
Theorem client_builds_persist (sts : list Client.Step) (c : Client.State)
  (k : Z) (m : Client.Mesh) :
  Client.get Z.eqb k (Client.builds c) = Some m ->
  Client.get Z.eqb k (Client.builds (fst (play sts c))) = Some m /\
  (forall b, id b = k -> Client.addBuild b c = c) /\
  (forall b c', Client.addBuild b (Client.addBuild b c')
                = Client.addBuild b c').
Proof.
  intros H. split; [|split].
  - apply (play_invariant
             (fun c' => Client.get Z.eqb k (Client.builds c') = Some m)
             (fun _ => True) (fun _ => True)); auto.
    + intros st c' _ Hc. split; [|apply Forall_forall; auto].
      destruct st; cbn [Client.step fst].
      * now rewrite on_input_builds.
      * now apply on_event_builds.
      * now rewrite animate_builds.
      * exact Hc.
    + apply Forall_forall. auto.
  - intros b <-. unfold Client.addBuild. now rewrite H.
  - intros b c'. pose proof (addBuild_known b c') as Hk.
    unfold Client.addBuild at 1.
    destruct (Client.get Z.eqb (id b) (Client.builds (Client.addBuild b c')));
      [reflexivity | contradiction].
Qed.

(** ** The keys of the player map of the server *)

Lemma lookup_None_keys (k : string) (ps : Players) :
  lookup k ps = None <-> ~ In k (map fst ps).
Proof.
  induction ps as [|[k' p] rest IH]; simpl; [tauto|].
  destruct (String.eqb k' k) eqn:E.
  - apply String.eqb_eq in E. split; [discriminate | tauto].
  - apply String.eqb_neq in E. rewrite IH. tauto.
Qed.

Lemma keys_set (k : string) (p : Player) (ps : Players) :
  NoDup (map fst ps) -> NoDup (map fst (set k p ps)).
Proof.
  intros H. destruct (lookup k ps) as [q|] eqn:E.
  - now rewrite (set_keys k p q ps E).
  - rewrite (set_fresh k p ps E), map_app. simpl.
    apply NoDup_app; auto.
    + repeat constructor. simpl. tauto.
    + intros a Ha [<-|[]]. now apply lookup_None_keys in E.
Qed.

Lemma keys_delete (k : string) (ps : Players) :
  NoDup (map fst ps) -> NoDup (map fst (delete k ps)).
Proof.
  induction ps as [|[k' p] rest IH]; simpl; auto.
  intros H. inversion H; subst.
  destruct (String.eqb k' k); simpl; auto.
  constructor; auto. intros Hin. apply in_map_iff in Hin.
  destruct Hin as ([k0 p0] & <- & Hin). apply In_delete in Hin.
  destruct Hin as [Hin _]. apply H2. apply in_map_iff.
  exists (k0, p0). auto.
Qed.

Lemma handle_keys (c : Command) (s : State) :
  NoDup (map fst (players s)) -> NoDup (map fst (players (fst (handle c s)))).
Proof.
  intros H. destruct c; cbn [handle].
  - now apply keys_set.
  - destruct (on_move_cases sid data s) as [[_ ->]|(p & _ & ->)]; auto.
    now apply keys_set.
  - destruct (on_shoot_cases sid data u1 u2 s)
      as [->|(h & v & _ & _ & ->)]; auto.
    destruct (applyDamage_cases h v u1 u2 s) as [[_ ->]|[_ ->]];
      now apply keys_set.
  - exact H.
  - now apply keys_delete.
  - exact H.
Qed.

(** ** The health bar *)

Lemma setHealth_server_value (h : Z) (c : Client.State) :
  (0 <= h <= 100)%Z ->
  Client.hud (Client.setHealth (Fin (IZR h)) c)
  = (Fin (IZR h), Fin (IZR h), Client.myId c).
Proof.
  intros [H0 H1]. apply IZR_le in H0, H1.
  unfold Client.setHealth, Client.hud, Math_max, Math_min.
  cbn [Client.with_health Client.myHealth Client.healthFill Client.myId].
  real_facts;
    match goal with
    | |- (Fin ?a, _, _) = _ => replace (IZR h) with a by lra; reflexivity
    end.
Qed.

Lemma hear_app (me : string) (e1 e2 : list Event) (c : Client.State) :
  Client.hear lerp lerpAngle me (e1 ++ e2) c
  = Client.hear lerp lerpAngle me e2 (Client.hear lerp lerpAngle me e1 c).
Proof. unfold Client.hear. now rewrite filter_app, fold_left_app. Qed.

Lemma on_initState_players (me : string) (ps : Players) (c : Client.State) :
  Client.myId c = Some me ->
  NoDup (map fst ps) ->
  (forall k p, In (k, p) ps -> (0 <= health p <= 100)%Z) ->
  let c' := fold_left (fun acc e =>
                         if Client.is_me (fst e) acc
                         then Client.addMyPlayer (fst e) (snd e) acc
                         else Client.addRemotePlayer (fst e) (snd e) acc)
                      ps c in
  match lookup me ps with
  | Some p => Client.hud c' = (Fin (IZR (health p)), Fin (IZR (health p)),
                               Some me)
  | None => Client.hud c' = Client.hud c
  end.
Proof.
  cbn zeta. revert c. induction ps as [|[k p] rest IH]; intros c Hme Hnd Hh.
  - reflexivity.
  - inversion Hnd as [|? ? Hnotin Hnd']; subst. cbn [fold_left fst snd lookup].
    assert (forall k' p', In (k', p') rest -> (0 <= health p' <= 100)%Z)
      as Hh' by (intros k' p' Hin; exact (Hh k' p' (or_intror Hin))).
    assert (Client.is_me k c = String.eqb k me) as ->
      by (unfold Client.is_me; now rewrite Hme).
    destruct (String.eqb k me) eqn:E.
    + apply String.eqb_eq in E. subst k.
      assert (Client.hud (Client.addMyPlayer me p c)
              = (Fin (IZR (health p)), Fin (IZR (health p)), Some me)) as Hhud.
      { unfold Client.addMyPlayer. rewrite setHealth_server_value.
        - reflexivity.
        - exact (Hh me p (or_introl eq_refl)). }
      specialize (IH (Client.addMyPlayer me p c)).
      apply lookup_None_keys in Hnotin. rewrite Hnotin in IH.
      rewrite IH; auto.
    + specialize (IH (Client.addRemotePlayer k p c) Hme Hnd' Hh').
      destruct (lookup me rest); [exact IH | now rewrite IH].
Qed.

Lemma on_event_hud (e : Event) (c : Client.State) :
  match e with
  | initState _ _ _ _ | playerHit _ _ => True
  | _ => Client.hud (on_event e c) = Client.hud c
  end.
Proof.
  destruct e; cbn [Client.on_event]; auto.
  - unfold Client.on_playerJoined. now destruct (Client.is_me pid c).
  - unfold Client.on_respawn. now destruct (Client.myMesh c).
  - apply addBuild_hud.
  - unfold Client.on_playerLeft.
    now destruct (Client.get String.eqb pid (Client.otherPlayers c)).
  - unfold Client.on_worldState.
    rewrite (fold_left_keeps _ Client.hud) by apply addBuild_hud.
    rewrite (fold_left_keeps _ Client.hud); [reflexivity|].
    intros [k p] c'. destruct (Client.is_me k c'); auto.
    now destruct (Client.get String.eqb k (Client.otherPlayers c')).
Qed.

Lemma hear_one (me : string) (e : Event) (c : Client.State) :
  Client.hear lerp lerpAngle me [e] c
  = if Client.reaches me e then on_event e c else c.
Proof.
  unfold Client.hear. cbn [filter]. now destruct (Client.reaches me e).
Qed.

Lemma hear_quiet (me : string) (e : Event) (c : Client.State) :
  match e with
  | initState _ _ _ _ | playerHit _ _ => False
  | _ => True
  end ->
  Client.hud (Client.hear lerp lerpAngle me [e] c) = Client.hud c.
Proof.
  intros He. rewrite hear_one. destruct (Client.reaches me e); auto.
  pose proof (on_event_hud e c) as H. destruct e; tauto.
Qed.

Lemma hear_hit (me vid : string) (h : Z) (c : Client.State) :
  Client.myId c = Some me -> (0 <= h <= 100)%Z ->
  Client.hud (Client.hear lerp lerpAngle me [playerHit vid h] c)
  = if String.eqb vid me then (Fin (IZR h), Fin (IZR h), Some me)
    else Client.hud c.
Proof.
  intros Hme Hh. rewrite hear_one. cbn [Client.reaches Client.on_event].
  unfold Client.on_playerHit, Client.is_me. rewrite Hme.
  destruct (String.eqb vid me); auto.
  rewrite setHealth_server_value by exact Hh. now rewrite Hme.
Qed.

Lemma hud_myId (c : Client.State) (a b : num) (i : option string) :
  Client.hud c = (a, b, i) -> Client.myId c = i.
Proof. unfold Client.hud. intros H. now inversion H. Qed.

(** One handler of the server, heard by the client of [me]. *)
Lemma handle_hud (me : string) (cmd : Command) (s : State)
  (c : Client.State) :
  healths_ok s ->
  NoDup (map fst (players s)) ->
  (forall p, lookup me (players s) = Some p ->
     Client.hud c = (Fin (IZR (health p)), Fin (IZR (health p)), Some me)) ->
  forall p', lookup me (players (fst (handle cmd s))) = Some p' ->
    Client.hud (Client.hear lerp lerpAngle me (snd (handle cmd s)) c)
    = (Fin (IZR (health p')), Fin (IZR (health p')), Some me).
Proof.
  intros Hs Hnd Hc p' Hp'.
  pose proof (proj1 (handle_healths cmd s Hs)) as Hs'.
  pose proof (handle_keys cmd s Hnd) as Hnd'.
  assert (forall k p, In (k, p) (players (fst (handle cmd s))) ->
                      (0 <= health p <= 100)%Z) as Hrange.
  { intros k p Hin. specialize (Hs' k p Hin). unfold alive in Hs'. lia. }
  destruct cmd; cbn [handle] in *.
  - (* connection *)
    unfold on_connection in *. cbn [fst snd players] in *.
    change [initState sid sid (set sid (mkPlayer (spawn_coord u1) (Fin 1)
                (spawn_coord u2) (Fin 0) 100) (players s)) (builds s);
            playerJoined sid sid (mkPlayer (spawn_coord u1) (Fin 1)
                (spawn_coord u2) (Fin 0) 100)]
      with ([initState sid sid (set sid (mkPlayer (spawn_coord u1) (Fin 1)
                (spawn_coord u2) (Fin 0) 100) (players s)) (builds s)] ++
            [playerJoined sid sid (mkPlayer (spawn_coord u1) (Fin 1)
                (spawn_coord u2) (Fin 0) 100)]).
    rewrite hear_app, hear_quiet by exact I.
    rewrite hear_one. cbn [Client.reaches Client.on_event].
    destruct (String.eqb sid me) eqn:E.
    + apply String.eqb_eq in E. subst sid.
      unfold Client.on_initState.
      rewrite (fold_left_keeps _ Client.hud) by apply addBuild_hud.
      pose proof (on_initState_players me _ (Client.with_myId (Some me) c)
                    eq_refl Hnd' Hrange) as Hi.
      cbn zeta in Hi. rewrite Hp' in Hi. exact Hi.
    + apply String.eqb_neq in E. apply Hc.
      rewrite lookup_set_other in Hp' by congruence. exact Hp'.
  - (* move *)
    destruct (on_move_cases sid data s) as [[_ E]|(p & Hp & E)];
      rewrite E in *; cbn [fst snd players] in *.
    + now apply Hc.
    + destruct (String.eqb sid me) eqn:Eq.
      * apply String.eqb_eq in Eq. subst sid.
        rewrite lookup_set_same in Hp'. inversion Hp'; subst p'.
        cbn [health]. now apply Hc.
      * apply String.eqb_neq in Eq.
        rewrite lookup_set_other in Hp' by congruence. now apply Hc.
  - (* shoot *)
    destruct (on_shoot_cases sid data u1 u2 s)
      as [E|(vid & v & _ & Hv & E)]; rewrite E in *.
    + now apply Hc.
    + assert (alive (health v)) as Hal
        by (apply lookup_In in Hv; exact (Hs _ _ Hv)).
      unfold alive in Hal.
      assert (forall w c1,
                Client.hud c1 = Client.hud c ->
                (0 <= health w <= 100)%Z ->
                lookup me (set vid w (players s)) = Some p' ->
                Client.hud (Client.hear lerp lerpAngle me
                              [playerHit vid (health w)] c1)
                = (Fin (IZR (health p')), Fin (IZR (health p')), Some me))
        as Hcase.
      { intros w c1 Hc1 Hw Hl.
        destruct (String.eqb vid me) eqn:Eq.
        - apply String.eqb_eq in Eq. subst vid.
          rewrite lookup_set_same in Hl. inversion Hl; subst p'.
          specialize (Hc v Hv). rewrite <- Hc1 in Hc.
          rewrite (hear_hit me me (health w) c1 (hud_myId _ _ _ _ Hc) Hw).
          now rewrite String.eqb_refl.
        - pose proof Eq as Eq'. apply String.eqb_neq in Eq'.
          rewrite lookup_set_other in Hl by congruence.
          specialize (Hc p' Hl). rewrite <- Hc1 in Hc.
          rewrite (hear_hit me vid (health w) c1 (hud_myId _ _ _ _ Hc) Hw).
          now rewrite Eq. }
      destruct (applyDamage_cases vid v u1 u2 s) as [[_ E2]|[Hh E2]];
        rewrite E2 in *; cbn [fst snd players] in *.
      * change [respawn vid (spawn_coord u1) (Fin 1) (spawn_coord u2);
                playerHit vid 100]
          with ([respawn vid (spawn_coord u1) (Fin 1) (spawn_coord u2)] ++
                [playerHit vid 100]).
        rewrite hear_app.
        apply (Hcase (mkPlayer (spawn_coord u1) (Fin 1) (spawn_coord u2)
                               (rotationY v) 100)); auto.
        -- now apply hear_quiet.
        -- cbn [health]. lia.
      * apply (Hcase (mkPlayer (x v) (y v) (z v) (rotationY v)
                               (health v - 20))); auto.
        cbn [health]. lia.
  - (* placeBuild *)
    cbn [on_placeBuild fst snd players] in *.
    rewrite hear_quiet by exact I. now apply Hc.
  - (* disconnect *)
    cbn [on_disconnect fst snd players] in *.
    rewrite hear_quiet by exact I. apply Hc.
    destruct (String.eqb me sid) eqn:E.
    + apply String.eqb_eq in E. subst sid.
      rewrite lookup_delete_same in Hp'. discriminate.
    + apply String.eqb_neq in E.
      now rewrite lookup_delete_other in Hp' by exact E.
  - (* tick *)
    cbn [on_tick fst snd] in *. rewrite hear_quiet by exact I. now apply Hc.
Qed.

(** X16.  The health bar follows the server.  A client that has heard every
    event the server addressed to the socket [me] shows, in [myHealth]
    and in the width of the bar, the health the server stores for [me],
    and knows itself as [me]. *)
Theorem hud_follows_server (me : string) (cs : list Command) :
  let s := fst (run cs init) in
  let c := Client.hear lerp lerpAngle me (snd (run cs init)) Client.start in
  forall p, lookup me (players s) = Some p ->
    Client.myId c = Some me /\
    Client.myHealth c = Fin (IZR (health p)) /\
    Client.healthFill c = Fin (IZR (health p)).
Proof.
  cbn zeta.
  assert (forall cs s c,
            healths_ok s -> NoDup (map fst (players s)) ->
            (forall p, lookup me (players s) = Some p ->
               Client.hud c
               = (Fin (IZR (health p)), Fin (IZR (health p)), Some me)) ->
            forall p, lookup me (players (fst (run cs s))) = Some p ->
              Client.hud (Client.hear lerp lerpAngle me (snd (run cs s)) c)
              = (Fin (IZR (health p)), Fin (IZR (health p)), Some me))
    as Hrun.
  { clear cs. induction cs as [|cmd cs IH]; intros s c Hs Hnd Hc p Hp.
    - simpl in *. now apply Hc.
    - rewrite run_cons in *. cbn [fst snd] in *. rewrite hear_app.
      apply (IH (fst (handle cmd s))); auto.
      + apply handle_healths. exact Hs.
      + now apply handle_keys.
      + intros p0 Hp0. now apply handle_hud. }
  intros p Hp.
  specialize (Hrun cs init Client.start).
  assert (Client.hud (Client.hear lerp lerpAngle me (snd (run cs init))
                                  Client.start)
          = (Fin (IZR (health p)), Fin (IZR (health p)), Some me)) as H.
  { apply Hrun; auto.
    - intros k q [].
    - constructor.
    - intros q Hq. discriminate. }
  unfold Client.hud in H. inversion H. auto.
Qed.

(** ** Looking around *)

Lemma on_key_yaw (i : Client.Input) (c : Client.State) :
  match i with
  | Client.MouseMove _ _ => True
  | _ => Client.myYaw (Client.on_input i c) = Client.myYaw c
  end.
Proof.
  destruct i; cbn [Client.on_input]; auto.
  - unfold Client.on_keydown.
    repeat match goal with
           | |- context [if ?g then _ else _] =>
               destruct g;
               [first [reflexivity | now destruct (Client.truthy_string _)]|]
           end; reflexivity.
  - unfold Client.on_keyup.
    repeat match goal with
           | |- context [if ?g then _ else _] => destruct g; [reflexivity|]
           end; reflexivity.
Qed.

Lemma mousemove_wraps (m r : R) (c : Client.State) :
  Client.myYaw c = Fin r -> - PI <= r <= PI ->
  - (2 * PI) <= m * 0.002 <= 2 * PI ->
  exists r', Client.myYaw (Client.on_mousemove true (Fin m) c) = Fin r' /\
             - PI <= r' <= PI /\
             (r' = r - m * 0.002 \/ r' = r - m * 0.002 - 2 * PI \/
              r' = r - m * 0.002 + 2 * PI).
Proof.
  intros Hy Hr Hm. pose proof PI_RGT_0 as Hpi.
  unfold Client.on_mousemove, Client.Math_PI, ngt.
  cbn [negb Client.with_myYaw Client.myYaw]. rewrite Hy. cbn [nsub nmul nlt].
  destruct (Rltb PI (r - m * 0.002)) eqn:E1.
  - apply Rltb_true in E1. cbn [nsub nneg nlt].
    rewrite (proj2 (Rltb_false (r - m * 0.002 - 2 * PI) (- PI))) by lra.
    eexists. split; [reflexivity|]. split; [lra | auto].
  - apply Rltb_false in E1. cbn [nneg nlt].
    destruct (Rltb (r - m * 0.002) (- PI)) eqn:E2.
    + apply Rltb_true in E2. cbn [nadd].
      eexists. split; [reflexivity|]. split; [lra | auto].
    + apply Rltb_false in E2.
      eexists. split; [reflexivity|]. split; [lra | auto].
Qed.

(** X17.  The yaw stays between [-Math.PI] and [Math.PI]: whatever happens to
    the client, as long as no single mouse movement turns the view by
    more than a full turn, and each movement changes the angle by the
    amount asked, up to a full turn. *)
Theorem yaw_stays_wrapped (sts : list Client.Step) :
  Forall Client.gentle sts ->
  (exists r, Client.myYaw (fst (play sts Client.start)) = Fin r /\
             - PI <= r <= PI) /\
  (forall m r c,
     Client.myYaw c = Fin r -> - PI <= r <= PI ->
     - (2 * PI) <= m * 0.002 <= 2 * PI ->
     exists r', Client.myYaw (Client.on_mousemove true (Fin m) c) = Fin r' /\
                - PI <= r' <= PI /\
                (r' = r - m * 0.002 \/ r' = r - m * 0.002 - 2 * PI \/
                 r' = r - m * 0.002 + 2 * PI)).
Proof.
  intros Hg. split; [|apply mousemove_wraps].
  apply (play_invariant
           (fun c => exists r, Client.myYaw c = Fin r /\ - PI <= r <= PI)
           Client.gentle (fun _ => True)); auto.
  - intros st c Hst (r & Hy & Hr). split; [|apply Forall_forall; auto].
    destruct st; cbn [Client.step fst].
    + destruct i as [code|code|locked mv].
      * pose proof (on_key_yaw (Client.KeyDown code) c) as E.
        cbn beta iota in E. rewrite E. eauto.
      * pose proof (on_key_yaw (Client.KeyUp code) c) as E.
        cbn beta iota in E. rewrite E. eauto.
      * cbn [Client.on_input]. destruct locked.
        -- cbn [Client.gentle] in Hst. destruct mv as [| | |m]; try tauto.
           destruct (mousemove_wraps m r c Hy Hr Hst) as (r' & H1 & H2 & _).
           eauto.
        -- unfold Client.on_mousemove. cbn [negb]. eauto.
    + pose proof (on_event_controls e c) as E. unfold Client.controls in E.
      inversion E as [[E1 E2 E3 E4]]. rewrite E1. eauto.
    + pose proof (animate_controls dt c) as E. unfold Client.controls in E.
      inversion E as [[E1 E2 E3 E4]]. rewrite E1. eauto.
    + eauto.
  - exists 0. split; [reflexivity|]. pose proof PI_RGT_0. lra.
Qed.

(** ** Walking and jumping *)

Lemma animate_shape (dt : num) (c : Client.State) (mesh : Client.Mesh) :
  Client.myMesh c = Some mesh ->
  exists px pz,
    let pos := Client.position mesh in
    let v0 := if Client.wantJump (Client.keys c) &&
                 nlt (Client.Math_abs (nsub (vy pos) (Fin 1))) (Fin 0.01)
              then Fin 5 else Client.velocityY c in
    let v1 := nsub v0 (nmul (Fin 9.8) dt) in
    let py1 := nadd (vy pos) (nmul v1 dt) in
    let py := if nlt py1 (Fin 1) then Fin 1 else py1 in
    let v2 := if nlt py1 (Fin 1) then Fin 0 else v1 in
    (px, pz) =
      (if ngt (Client.lengthSq (Client.wish_dir (Client.keys c))) (Fin 0)
       then
         let n := normalize (Client.wish_dir (Client.keys c)) in
         let sn := Client.Math_sin (Client.myYaw c) in
         let cs := Client.Math_cos (Client.myYaw c) in
         (nadd (vx pos)
               (nmul (nmul (nsub (nmul (vx n) cs) (nmul (vz n) sn)) (Fin 8))
                     dt),
          nadd (vz pos)
               (nmul (nmul (nadd (nmul (vx n) sn) (nmul (vz n) cs)) (Fin 8))
                     dt))
       else (vx pos, vz pos)) /\
    animate dt c =
      (Client.with_velocityY v2
         (Client.with_myMesh
            (Some (Client.mkMesh (Client.geometry mesh) (Client.color mesh)
                                 (mkVec3 px py pz)
                                 (Client.rotation_y mesh))) c),
       [Client.move (mkMove px py pz (Client.myYaw c))]).
Proof.
  intros Hm. unfold Client.animate. rewrite Hm. cbn zeta.
  destruct (if ngt (Client.lengthSq (Client.wish_dir (Client.keys c))) (Fin 0)
            then _ else _) as [px pz] eqn:E.
  exists px, pz. split; [reflexivity|].
  destruct (nlt _ (Fin 1)); reflexivity.
Qed.

(** X18.  The local player never sinks below the ground level [y = 1]: after
    a frame its height is not below 1, and when the frame would take it
    below, it is put on the ground with no vertical speed left.  While
    it is more than 0.01 above the ground, asking for a jump changes
    nothing. *)
Theorem player_stays_above_ground (dt : num) (c : Client.State)
  (mesh : Client.Mesh) :
  Client.myMesh c = Some mesh ->
  (exists mesh',
     Client.myMesh (fst (animate dt c)) = Some mesh' /\
     nlt (vy (Client.position mesh')) (Fin 1) = false /\
     snd (animate dt c) =
       [Client.move (mkMove (vx (Client.position mesh'))
                            (vy (Client.position mesh'))
                            (vz (Client.position mesh'))
                            (Client.myYaw c))]) /\
  (forall t y0 v0,
     dt = Fin t -> vy (Client.position mesh) = Fin y0 ->
     Client.velocityY c = Fin v0 ->
     exists mesh' y1 v1,
       Client.myMesh (fst (animate dt c)) = Some mesh' /\
       vy (Client.position mesh') = Fin y1 /\
       Client.velocityY (fst (animate dt c)) = Fin v1 /\
       1 <= y1 /\
       ((y1 = 1 /\ v1 = 0) \/
        (v1 <= Rmax v0 5 - 9.8 * t /\ y1 = y0 + v1 * t))) /\
  (forall y0,
     vy (Client.position mesh) = Fin y0 -> 1.01 <= y0 ->
     forall j j',
       let a := animate dt (Client.with_wantJump j c) in
       let a' := animate dt (Client.with_wantJump j' c) in
       Client.myMesh (fst a) = Client.myMesh (fst a') /\
       Client.velocityY (fst a) = Client.velocityY (fst a') /\
       snd a = snd a').
Proof.
  intros Hm. split; [|split].
  - destruct (animate_shape dt c mesh Hm) as (px & pz & _ & ->).
    cbn [fst snd Client.with_velocityY Client.with_myMesh Client.myMesh
         Client.velocityY Client.position vy].
    eexists. split; [reflexivity|]. cbn [Client.position vx vy vz].
    split; [|reflexivity].
    match goal with
    | |- context [if nlt ?e (Fin 1) then _ else _] =>
        destruct (nlt e (Fin 1)) eqn:E
    end.
    + simpl. apply Rltb_false. lra.
    + exact E.
  - intros t y0 v0 -> Hy Hv.
    destruct (animate_shape (Fin t) c mesh Hm) as (px & pz & _ & ->).
    cbn [fst Client.with_velocityY Client.with_myMesh Client.myMesh
         Client.velocityY].
    rewrite Hy, Hv.
    pose proof (Rmax_l v0 5) as Hl. pose proof (Rmax_r v0 5) as Hr.
    destruct (Client.wantJump (Client.keys c) &&
              nlt (Client.Math_abs (nsub (Fin y0) (Fin 1))) (Fin 0.01));
      cbn [nsub nmul nadd nlt];
      match goal with
      | |- context [if Rltb ?e 1 then _ else _] =>
          destruct (Rltb e 1) eqn:E
      end;
      eexists; eexists; eexists; (split; [reflexivity|]);
      cbn [Client.position vy];
      (split; [reflexivity|]); (split; [reflexivity|]);
      try apply Rltb_false in E;
      (split; [lra|]);
      first [ left; split; reflexivity | right; split; lra ].
  - intros y0 Hy Hhigh j j'. cbn zeta.
    assert (forall b, Client.myMesh (Client.with_wantJump b c) = Some mesh)
      as Hmb by (intros b; exact Hm).
    destruct (animate_shape dt _ mesh (Hmb j)) as (px & pz & Ep & ->).
    destruct (animate_shape dt _ mesh (Hmb j')) as (px' & pz' & Ep' & ->).
    cbn zeta in Ep, Ep'.
    assert ((px, pz) = (px', pz')) as Epp.
    { rewrite Ep, Ep'. reflexivity. }
    inversion Epp; subst px' pz'.
    rewrite Hy.
    assert (nlt (Client.Math_abs (nsub (Fin y0) (Fin 1))) (Fin 0.01) = false)
      as Hair.
    { simpl. apply Rltb_false. unfold Rabs.
      destruct (Rcase_abs (y0 - 1)); lra. }
    rewrite Hair, !andb_false_r.
    cbn [fst snd Client.with_velocityY Client.with_myMesh Client.myMesh
         Client.velocityY Client.with_wantJump Client.with_keys
         Client.myYaw Client.geometry Client.color Client.rotation_y].
    repeat split; reflexivity.
Qed.

(** X19.  Opposite keys cancel.  When forward and backward are both
    held or both released, and so are left and right, a frame leaves [x]
    and [z] of the local player as they were, whatever the time step and
    the yaw, the [move] message reports them unchanged, and
    [Vector3.normalize] has no part in the result. *)
Theorem opposite_keys_cancel (dt : num) (c : Client.State)
  (mesh : Client.Mesh) :
  Client.myMesh c = Some mesh ->
  Client.moveForward (Client.keys c) = Client.moveBackward (Client.keys c) ->
  Client.moveLeft (Client.keys c) = Client.moveRight (Client.keys c) ->
  (exists mesh' py,
     Client.myMesh (fst (animate dt c)) = Some mesh' /\
     Client.position mesh' =
       mkVec3 (vx (Client.position mesh)) py (vz (Client.position mesh)) /\
     snd (animate dt c) =
       [Client.move (mkMove (vx (Client.position mesh)) py
                            (vz (Client.position mesh)) (Client.myYaw c))]) /\
  (forall normalize', Client.animate normalize' dt c = animate dt c).
Proof.
  intros Hm Hfb Hlr.
  assert (Client.lengthSq (Client.wish_dir (Client.keys c)) = Fin 0) as Hlen.
  { unfold Client.wish_dir, Client.lengthSq.
    destruct (Client.keys c) as [f b l r j].
    cbn [Client.moveForward Client.moveBackward Client.moveLeft
         Client.moveRight] in *.
    subst b r. destruct f, l; cbn [vx vy vz nadd nsub nmul]; f_equal; lra. }
  assert (ngt (Fin 0) (Fin 0) = false) as Hgt.
  { unfold ngt. apply nlt_irrefl. }
  split.
  - destruct (animate_shape dt c mesh Hm) as (px & pz & Ep & ->).
    cbn zeta in Ep. rewrite Hlen, Hgt in Ep. inversion Ep; subst px pz.
    cbn [fst snd Client.with_velocityY Client.with_myMesh Client.myMesh].
    eexists. eexists. split; [reflexivity|].
    cbn [Client.position]. split; reflexivity.
  - intros normalize'. unfold Client.animate. rewrite Hm. cbn zeta.
    rewrite Hlen, Hgt. reflexivity.
Qed.

(** ** The building grid *)

Lemma round_near (r : R) :
  r - 0.5 < IZR (Int_part (r + 0.5)) <= r + 0.5.
Proof.
  destruct (base_Int_part (r + 0.5)) as [H1 H2]. lra.
Qed.

Lemma round_integer (n : Z) : Int_part (IZR n + 0.5) = n.
Proof.
  symmetry. apply Int_part_spec. lra.
Qed.

(** X20.  A build is asked for on the grid: the coordinate the client sends
    for a finite hit coordinate [v] is a whole number, the nearest one
    (at most half a cell from [v], a tie going up), and snapping it again
    changes nothing.  The yaw is sent as a whole number of quarter turns,
    at most an eighth of a turn from the view. *)
Theorem build_snaps_to_grid (v : R) :
  (exists n : Z,
     Client.snap (Fin v) = Fin (IZR n) /\
     v - 0.5 < IZR n <= v + 0.5 /\
     Client.snap (Client.snap (Fin v)) = Client.snap (Fin v)) /\
  (exists k : Z,
     Client.snap_yaw (Fin v) = Fin (IZR k * (PI / 2)) /\
     v - PI / 4 < IZR k * (PI / 2) <= v + PI / 4).
Proof.
  assert (forall r, Client.snap (Fin r) = Fin (IZR (Int_part (r + 0.5))))
    as Hsnap.
  { intros r. unfold Client.snap, Client.GRID_SIZE. cbn [ndiv].
    assert (Reqb 1 0 = false) as -> by (apply Reqb_false; lra).
    cbn [Client.Math_round nmul]. f_equal.
    replace (r / 1) with r by lra. lra. }
  split.
  - exists (Int_part (v + 0.5)). split; [apply Hsnap|].
    split; [apply round_near|].
    rewrite !Hsnap. now rewrite round_integer.
  - pose proof PI_RGT_0 as Hpi.
    unfold Client.snap_yaw, Client.Math_PI. cbn [ndiv].
    assert (Reqb 2 0 = false) as -> by (apply Reqb_false; lra).
    assert (Reqb (PI / 2) 0 = false) as -> by (apply Reqb_false; lra).
    cbn [Client.Math_round nmul].
    exists (Int_part (v / (PI / 2) + 0.5)). split; [reflexivity|].
    pose proof (round_near (v / (PI / 2))) as [H1 H2].
    set (n := IZR (Int_part (v / (PI / 2) + 0.5))) in *.
    assert (v = v / (PI / 2) * (PI / 2)) as Hv by (field; lra).
    set (q := v / (PI / 2)) in *.
    split; nra.
Qed.

End ClientProperties.


(** ** Samples

    The properties of the client at concrete inputs, with
    [Vector3.normalize] as three.js has it. *)

Lemma client_builds_persist_witness :
  let b := mkBuild 1%Z "A" "wall" (Fin 2) (Fin 1) (Fin 3) (Fin 0) in
  let c := Client.addBuild b Client.start in
  let sts := [Client.Hear (playerLeft "A"); Client.Hear (worldState [] [])] in
  exists m,
    Client.get Z.eqb 1%Z (Client.builds c) = Some m /\
    Client.get Z.eqb 1%Z
      (Client.builds
         (fst (Client.play Client.Vector3_normalize (fun a _ _ => a)
                           (fun a _ _ => a) sts c))) = Some m.
Proof.
  intros b c sts. eexists. split; [reflexivity|].
  exact (proj1 (client_builds_persist Client.Vector3_normalize
                  (fun a _ _ => a) (fun a _ _ => a) sts c 1%Z _ eq_refl)).
Defined.

Lemma hud_follows_server_witness :
  let cs := [Connect "A" 0.5 0.5; Tick] in
  let spawn := mkPlayer (spawn_coord 0.5) (Fin 1) (spawn_coord 0.5) (Fin 0)
                        100%Z in
  lookup "A" (players (fst (run cs init))) = Some spawn /\
  Client.myHealth
    (Client.hear (fun a _ _ => a) (fun a _ _ => a) "A" (snd (run cs init))
                 Client.start) = Fin 100.
Proof.
  intros cs spawn. split; [reflexivity|].
  exact (proj1 (proj2 (hud_follows_server (fun a _ _ => a) (fun a _ _ => a)
                         "A" cs spawn eq_refl))).
Defined.

Lemma yaw_stays_wrapped_witness :
  let sts := [Client.Do (Client.MouseMove true (Fin 100));
              Client.Do (Client.KeyDown "KeyW")] in
  Forall Client.gentle sts /\
  exists r,
    Client.myYaw
      (fst (Client.play Client.Vector3_normalize (fun a _ _ => a)
                        (fun a _ _ => a) sts Client.start)) = Fin r /\
    - PI <= r <= PI.
Proof.
  intros sts.
  assert (Forall Client.gentle sts) as H.
  { pose proof PI2_1 as Hpi.
    apply Forall_cons; [simpl; lra|]. apply Forall_cons; [exact I|].
    apply Forall_nil. }
  split; [exact H|].
  exact (proj1 (yaw_stays_wrapped Client.Vector3_normalize (fun a _ _ => a)
                  (fun a _ _ => a) sts H)).
Defined.

Lemma player_stays_above_ground_witness :
  let p := mkPlayer (Fin 0) (Fin 1) (Fin 0) (Fin 0) 100%Z in
  let c := Client.addMyPlayer "A" p Client.start in
  Client.myMesh c = Some (Client.player_mesh Client.PLAYER_COLOR p) /\
  exists mesh',
    Client.myMesh (fst (Client.animate Client.Vector3_normalize (Fin 0.016) c))
    = Some mesh' /\
    nlt (vy (Client.position mesh')) (Fin 1) = false /\
    snd (Client.animate Client.Vector3_normalize (Fin 0.016) c) =
      [Client.move (mkMove (vx (Client.position mesh'))
                           (vy (Client.position mesh'))
                           (vz (Client.position mesh'))
                           (Client.myYaw c))].
Proof.
  intros p c. split; [reflexivity|].
  exact (proj1 (player_stays_above_ground Client.Vector3_normalize
                  (Fin 0.016) c _ eq_refl)).
Defined.

Lemma opposite_keys_cancel_witness :
  let p := mkPlayer (Fin 3) (Fin 1) (Fin 4) (Fin 0) 100%Z in
  let c := Client.on_keydown "KeyS"
             (Client.on_keydown "KeyW"
                (Client.addMyPlayer "A" p Client.start)) in
  exists mesh' py,
    Client.myMesh (fst (Client.animate Client.Vector3_normalize (Fin 0.5) c))
    = Some mesh' /\
    Client.position mesh' = mkVec3 (Fin 3) py (Fin 4) /\
    snd (Client.animate Client.Vector3_normalize (Fin 0.5) c) =
      [Client.move (mkMove (Fin 3) py (Fin 4) (Client.myYaw c))].
Proof.
  intros p c.
  exact (proj1 (opposite_keys_cancel Client.Vector3_normalize (Fin 0.5) c
                  (Client.player_mesh Client.PLAYER_COLOR p)
                  eq_refl eq_refl eq_refl)).
Defined.
